(** * skg.gauss: closed-form fit of an unnormalised Gaussian bell curve

    A shallow embedding of [src/skg/gauss.py] ([gauss_fit] and [model]) and
    the properties of its specification.

    Numbers.  The arrays handed to the fitter hold finite double-precision
    numbers; they are embedded as real numbers and the arithmetic on them is
    exact (no rounding, no overflow, no underflow).  From line 118 on the
    source can leave the finite numbers (a division by [B], a square root of
    a negative number), so the scalars [mu], [sigma], [amp] and the trial
    curve live in [float64], the reals extended with the IEEE-754 special
    values.  There is one zero: a zero divisor behaves as IEEE [+0.0];
    statements about a division by zero only say that the result is not
    finite, which holds for either sign of the zero.  numpy reports such
    operations with a [RuntimeWarning] and carries on; a warning is no
    control flow and is not part of the model.  The literals [0.5] and
    [-1.0] of the source are written [1 / 2] and [-1].

    Arrays.  One-dimensional arrays are lists; the matrix [a1] is the list
    of its rows.  The functions of the first part compute the contents of
    the arrays; module [Store] has the same program statement by statement
    on mutable array objects.

    What is not in the sources.  [scipy.linalg.lstsq] is a library function
    and is modelled by its documented result; [skg._util.preprocess] belongs
    to the package but its file is missing, it is modelled from the
    specification. *)

From Stdlib Require Import Reals Lra Lia List Bool Arith.
Import ListNotations.

#[local] Open Scope R_scope.

(** ** Extended double-precision values *)

Module F64.

Inductive float64 : Type :=
| Fin (r : R)
| PInf
| NInf
| NaN.

Definition is_finite (v : float64) : Prop :=
  match v with Fin _ => True | _ => False end.

Definition fneg (v : float64) : float64 :=
  match v with
  | Fin r => Fin (- r)
  | PInf => NInf
  | NInf => PInf
  | NaN => NaN
  end.

Definition fadd (v w : float64) : float64 :=
  match v, w with
  | Fin a, Fin b => Fin (a + b)
  | NaN, _ | _, NaN => NaN
  | PInf, NInf | NInf, PInf => NaN
  | PInf, _ | _, PInf => PInf
  | NInf, _ | _, NInf => NInf
  end.

Definition fsub (v w : float64) : float64 := fadd v (fneg w).

(** An infinity scaled by the finite number [r]. *)
Definition inf_scaled (positive : bool) (r : R) : float64 :=
  match total_order_T r 0 with
  | inleft (left _) => if positive then NInf else PInf
  | inleft (right _) => NaN
  | inright _ => if positive then PInf else NInf
  end.

Definition fmul (v w : float64) : float64 :=
  match v, w with
  | Fin a, Fin b => Fin (a * b)
  | NaN, _ | _, NaN => NaN
  | PInf, Fin r | Fin r, PInf => inf_scaled true r
  | NInf, Fin r | Fin r, NInf => inf_scaled false r
  | PInf, PInf | NInf, NInf => PInf
  | PInf, NInf | NInf, PInf => NInf
  end.

Definition fdiv (v w : float64) : float64 :=
  match v, w with
  | Fin a, Fin b =>
      if Req_dec_T b 0
      then match total_order_T a 0 with
           | inleft (left _) => NInf
           | inleft (right _) => NaN
           | inright _ => PInf
           end
      else Fin (a / b)
  | NaN, _ | _, NaN => NaN
  | Fin _, PInf | Fin _, NInf => Fin 0
  | PInf, Fin b => if Rlt_dec b 0 then NInf else PInf
  | NInf, Fin b => if Rlt_dec b 0 then PInf else NInf
  | PInf, _ | NInf, _ => NaN
  end.

Definition fsqrt (v : float64) : float64 :=
  match v with
  | Fin r => if Rlt_dec r 0 then NaN else Fin (sqrt r)
  | PInf => PInf
  | NInf => NaN
  | NaN => NaN
  end.

(** [exp] of a finite number is the real exponential, which is never
    zero; the underflow of double precision ([exp(r) = 0.0] for [r] below
    about [-745]) is outside this arithmetic. *)
Definition fexp (v : float64) : float64 :=
  match v with
  | Fin r => Fin (exp r)
  | PInf => PInf
  | NInf => Fin 0
  | NaN => NaN
  end.

(** [v ** 2] *)
Definition fsqr (v : float64) : float64 := fmul v v.

(** [v.dot(w)] on one-dimensional arrays of equal length. *)
Fixpoint fdot (v w : list float64) : float64 :=
  match v, w with
  | a :: v', b :: w' => fadd (fmul a b) (fdot v' w')
  | _, _ => Fin 0
  end.

End F64.
Import F64.

(** ** numpy kernels on one-dimensional arrays of finite numbers *)

Module Np.

(** Element-wise binary operation on two arrays of the same length. *)
Fixpoint map2 {A B C : Type} (f : A -> B -> C) (u : list A) (v : list B)
  : list C :=
  match u, v with
  | a :: u', b :: v' => f a b :: map2 f u' v'
  | _, _ => []
  end.

(** [numpy.diff]: [out[i] = x[i+1] - x[i]]. *)
Fixpoint diff (x : list R) : list R :=
  match x with
  | a :: (b :: _) as t => (b - a) :: diff t
  | _ => []
  end.

(** [numpy.cumsum]: [out[0] = v[0]], [out[i] = out[i-1] + v[i]]. *)
Fixpoint cumsum_from (acc : R) (v : list R) : list R :=
  match v with
  | [] => []
  | a :: v' => (acc + a) :: cumsum_from (acc + a) v'
  end.

Definition cumsum (v : list R) : list R :=
  match v with
  | [] => []
  | a :: v' => a :: cumsum_from a v'
  end.

(** [u.dot(v)] *)
Fixpoint dot (u v : list R) : R :=
  match u, v with
  | a :: u', b :: v' => a * b + dot u' v'
  | _, _ => 0
  end.

End Np.
Import Np.

(** ** scipy.linalg.lstsq for a two-column system

    [lstsq] belongs to scipy, not to this package.  It is modelled by its
    documented result in exact arithmetic: the least-squares solution of
    minimum norm of [a p = b] (what the default [gelsd] driver computes
    through the pseudo-inverse), written out for two columns with
    [G = a^T a] and [t = a^T b]:
      - rank 2: [p = G^-1 t];
      - rank 1: [p = t / trace G];
      - rank 0: [p = 0].
    A rank-deficient matrix is no error for [lstsq].
    [lstsq_normal_equations], [lstsq_least_squares] and [lstsq_minimum_norm]
    below check the model against that description. *)

Module Linalg.

Definition column0 (a : list (R * R)) : list R := map fst a.
Definition column1 (a : list (R * R)) : list R := map snd a.

Definition gram_det (a : list (R * R)) : R :=
  dot (column0 a) (column0 a) * dot (column1 a) (column1 a)
  - dot (column0 a) (column1 a) * dot (column0 a) (column1 a).

Definition lstsq (a : list (R * R)) (b : list R) : R * R :=
  let u := column0 a in
  let v := column1 a in
  let s11 := dot u u in
  let s12 := dot u v in
  let s22 := dot v v in
  let t1 := dot u b in
  let t2 := dot v b in
  let det := s11 * s22 - s12 * s12 in
  if Req_dec_T det 0
  then if Req_dec_T (s11 + s22) 0
       then (0, 0)
       else (t1 / (s11 + s22), t2 / (s11 + s22))
  else ((s22 * t1 - s12 * t2) / det, (s11 * t2 - s12 * t1) / det).

(** Squared residual norm [|a p - b|^2]. *)
Fixpoint residual2 (a : list (R * R)) (b : list R) (p : R * R) : R :=
  match a, b with
  | (u, v) :: a', c :: b' =>
      (u * fst p + v * snd p - c) * (u * fst p + v * snd p - c)
      + residual2 a' b' p
  | _, _ => 0
  end.

End Linalg.
Import Linalg.

(** ** The fitter *)

Inductive error : Type :=
| ShapeMismatchError.

Inductive result (A : Type) : Type :=
| Ok (a : A)
| Raise (e : error).
Arguments Ok {A} a.
Arguments Raise {A} e.

(** Stable insertion of the pair [p] by ascending first component. *)
Fixpoint insert_by_x (p : R * R) (l : list (R * R)) : list (R * R) :=
  match l with
  | [] => [p]
  | q :: l' =>
      if Rle_dec (fst p) (fst q) then p :: l else q :: insert_by_x p l'
  end.

Definition sort_by_x (l : list (R * R)) : list (R * R) :=
  fold_right insert_by_x [] l.

(** Modelled from the spec: [skg._util.preprocess] is imported by
    [gauss.py] but is not among the sources.  The specification gives it as
    the Preprocessor: it takes two numeric sequences, rejects them with a
    ShapeMismatchError when their lengths disagree or when there are fewer
    than two samples, returns them as they are when [sorted] is set, and
    otherwise sorts both by ascending [x], keeping every [y] with its [x]. *)
Definition preprocess (x y : list R) (sorted : bool)
  : result (list R * list R) :=
  if negb (length x =? length y)%nat || (length x <? 2)%nat
  then Raise ShapeMismatchError
  else if sorted then Ok (x, y)
       else let l := sort_by_x (combine x y) in Ok (map fst l, map snd l).

(** Line 105: [d = 0.5 * diff(x)]. *)
Definition half_steps (x : list R) : list R := map (Rmult (1 / 2)) (diff x).

(** Lines 111 and 112, right-hand side for the series [z]:
    [cumsum((z[1:] + z[:-1]) * d)]. *)
Definition cumtrapz (z d : list R) : list R :=
  cumsum (map2 Rmult (map2 Rplus (tl z) (removelast z)) d).

(** Lines 106 to 112: the array [a1], one row per sample. *)
Definition design (x y : list R) : list (R * R) :=
  let d := half_steps x in
  let xy := map2 Rmult x y in
  (0, 0) :: combine (cumtrapz y d) (cumtrapz xy d).

(** Line 114: [b1 = y - y[0]]. *)
Definition target (y : list R) : list R := map (fun yi => yi - hd 0 y) y.

(** Line 118: [mu, sigma = -A / B, sqrt(-1.0 / B)]. *)
Definition recover_mu (A B : R) : float64 := fdiv (fneg (Fin A)) (Fin B).
Definition recover_sigma (B : R) : float64 := fsqrt (fdiv (Fin (-1)) (Fin B)).

(** Line 121: [a2 = exp(-0.5 * ((x - mu) / sigma)**2)]. *)
Definition bell (mu sigma : float64) (xi : R) : float64 :=
  fexp (fmul (Fin (- (1 / 2))) (fsqr (fdiv (fsub (Fin xi) mu) sigma))).

Definition trial_curve (x : list R) (mu sigma : float64) : list float64 :=
  map (bell mu sigma) x.

(** Line 122: [amp = y.dot(a2) / a2.dot(a2)]. *)
Definition amplitude (y : list R) (a2 : list float64) : float64 :=
  fdiv (fdot (map Fin y) a2) (fdot a2 a2).

(** Lines 105 to 126, on the arrays returned by [preprocess].  The arrays
    [a1] and [b1] hold finite numbers here, so [lstsq] has nothing to
    reject; in double precision an overflow in lines 105 to 114 would put
    an infinity into them, which [lstsq] refuses with a [ValueError].  That
    path needs rounding and is not part of this arithmetic: the theorems
    below speak of the values the fit returns, not of its returning. *)
Definition fit_core (x y : list R) : float64 * float64 * float64 :=
  let a1 := design x y in
  let b1 := target y in
  let '(A, B) := lstsq a1 b1 in
  let mu := recover_mu A B in
  let sigma := recover_sigma B in
  let a2 := trial_curve x mu sigma in
  let amp := amplitude y a2 in
  (amp, mu, sigma).

Definition gauss_fit (x y : list R) (sorted : bool)
  : result (float64 * float64 * float64) :=
  match preprocess x y sorted with
  | Raise e => Raise e
  | Ok (x', y') => Ok (fit_core x' y')
  end.

(** [model(x, a, mu, sigma)], line 150:
    [a * exp(-0.5 * ((x - mu) / sigma)**2)]. *)
Definition model (x : list R) (a mu sigma : float64) : list float64 :=
  map (fun xi => fmul a (bell mu sigma xi)) x.

(** ** The cumulative integrals as the specification writes them *)

Module Spec.

(** [d_i = 0.5 * (x_{i+1} - x_i)] *)
Definition d_spec (x : list R) (i : nat) : R :=
  1 / 2 * (nth (S i) x 0 - nth i x 0).

(** [xy_i = x_i * y_i] *)
Definition xy_spec (x y : list R) (i : nat) : R := nth i x 0 * nth i y 0.

(** [S[0] = 0]; [S[i] = S[i-1] + (z_i + z_{i-1}) * d_{i-1}] *)
Fixpoint cum_spec (z d : nat -> R) (i : nat) : R :=
  match i with
  | O => 0
  | S j => cum_spec z d j + (z i + z j) * d j
  end.

Definition S_y_spec (x y : list R) : nat -> R :=
  cum_spec (fun i => nth i y 0) (d_spec x).

Definition S_xy_spec (x y : list R) : nat -> R :=
  cum_spec (xy_spec x y) (d_spec x).

(** Sum of [f 0 .. f (n-1)]. *)
Fixpoint sum_below (f : nat -> R) (n : nat) : R :=
  match n with
  | O => 0
  | S k => sum_below f k + f k
  end.

(** The squared residual of the linear problem of step 4 for the
    coefficients [p = (A, B)]: design columns [S_y] and [S_xy], target
    [y - y[0]]. *)
Definition spec_residual2 (x y : list R) (p : R * R) : R :=
  sum_below
    (fun i =>
       let r := S_y_spec x y i * fst p + S_xy_spec x y i * snd p
                - (nth i y 0 - nth 0 y 0) in
       r * r)
    (length x).

End Spec.
Import Spec.

(** ** The arrays as objects

    The fitter works on numpy arrays, which are mutable objects: it fills
    [a1] by slice assignment and lets [lstsq] overwrite [a1] and [b1]
    ([overwrite_a=True], [overwrite_b=True]).  The store below has one cell
    per array; a location that was never allocated holds whatever the
    function [cell] gives there.  Temporaries of an expression (such as
    [y[1:] + y[:-1]]) are unreachable once it is evaluated and get no
    cell. *)

Module Store.

Inductive ndarray : Type :=
| Arr1 (v : list R)
| Arr2 (rows : list (R * R))
| ArrF (v : list float64).

Definition loc : Type := nat.

Record store : Type := mkStore { cell : loc -> ndarray; next : loc }.

Definition upd (l : loc) (a : ndarray) (c : loc -> ndarray)
  : loc -> ndarray :=
  fun k => if (k =? l)%nat then a else c k.

(** Contents of an array of the expected kind. *)
Definition as1 (a : ndarray) : list R :=
  match a with Arr1 v => v | _ => [] end.
Definition as2 (a : ndarray) : list (R * R) :=
  match a with Arr2 rows => rows | _ => [] end.
Definition asF (a : ndarray) : list float64 :=
  match a with ArrF v => v | _ => [] end.

(** Computations that read and write the store and may raise. *)
Definition M (A : Type) : Type := store -> result A * store.

Definition ret {A : Type} (a : A) : M A := fun h => (Ok a, h).

Definition raise {A : Type} (e : error) : M A := fun h => (Raise e, h).

Definition bind {A B : Type} (m : M A) (k : A -> M B) : M B :=
  fun h =>
    match m h with
    | (Ok a, h') => k a h'
    | (Raise e, h') => (Raise e, h')
    end.

Notation "x <- m ;; k" := (bind m (fun x => k))
  (at level 61, m at next level, right associativity).
Notation "m ;; k" := (bind m (fun _ => k))
  (at level 61, right associativity).

(** A new array object. *)
Definition new (a : ndarray) : M loc :=
  fun h => (Ok (next h), mkStore (upd (next h) a (cell h)) (S (next h))).

Definition get (l : loc) : M ndarray := fun h => (Ok (cell h l), h).

(** In-place update of the array at [l]. *)
Definition put (l : loc) (a : ndarray) : M unit :=
  fun h => (Ok tt, mkStore (upd l a (cell h)) (next h)).

(** [a[0, :] = 0].  (On an array without rows numpy raises; the
    preprocessor lets no such array through.) *)
Definition set_row0 (rows : list (R * R)) : list (R * R) :=
  match rows with
  | [] => []
  | _ :: t => (0, 0) :: t
  end.

(** [a[1:, 0] = v] and [a[1:, 1] = v], for [v] as long as [a[1:]]. *)
Definition set_col0_from1 (v : list R) (rows : list (R * R))
  : list (R * R) :=
  match rows with
  | [] => []
  | r :: t => r :: map2 (fun ri vi => (vi, snd ri)) t v
  end.

Definition set_col1_from1 (v : list R) (rows : list (R * R))
  : list (R * R) :=
  match rows with
  | [] => []
  | r :: t => r :: map2 (fun ri vi => (fst ri, vi)) t v
  end.

Section Program.

(** What [numpy.empty] leaves in row [i] of a fresh array, and what LAPACK
    leaves in the matrix and in the right-hand side it was allowed to
    overwrite. *)
Variable garbage : nat -> R * R.
Variable scratch_a : list (R * R) -> list R -> list (R * R).
Variable scratch_b : list (R * R) -> list R -> list R.

(** Modelled from the spec: [skg._util.preprocess] on array objects.  The
    checks and the sorting are those of [preprocess]; with [sorted] set the
    two arrays come back as the objects they are, otherwise the sorted
    sequences are new arrays. *)
Definition preprocess_st (lx ly : loc) (sorted : bool) : M (loc * loc) :=
  ax <- get lx ;;
  ay <- get ly ;;
  match preprocess (as1 ax) (as1 ay) sorted with
  | Raise e => raise e
  | Ok (x', y') =>
      if sorted then ret (lx, ly)
      else lx' <- new (Arr1 x') ;;
           ly' <- new (Arr1 y') ;;
           ret (lx', ly')
  end.

(** [lstsq(a1, b1, overwrite_a=True, overwrite_b=True)] *)
Definition lstsq_st (la lb : loc) : M (R * R) :=
  a <- get la ;;
  b <- get lb ;;
  put la (Arr2 (scratch_a (as2 a) (as1 b))) ;;
  put lb (Arr1 (scratch_b (as2 a) (as1 b))) ;;
  ret (lstsq (as2 a) (as1 b)).

(** Lines 105 to 126, statement by statement. *)
Definition fit_core_st (lx ly : loc) : M loc :=
  ax <- get lx ;;
  ay <- get ly ;;
  let x := as1 ax in
  let y := as1 ay in
  ld <- new (Arr1 (half_steps x)) ;;
  lxy <- new (Arr1 (map2 Rmult x y)) ;;
  ad <- get ld ;;
  axy <- get lxy ;;
  let d := as1 ad in
  let xy := as1 axy in
  la1 <- new (Arr2 (map garbage (seq 0 (length xy)))) ;;
  a <- get la1 ;;
  put la1 (Arr2 (set_row0 (as2 a))) ;;
  a <- get la1 ;;
  put la1 (Arr2 (set_col0_from1 (cumtrapz y d) (as2 a))) ;;
  a <- get la1 ;;
  put la1 (Arr2 (set_col1_from1 (cumtrapz xy d) (as2 a))) ;;
  lb1 <- new (Arr1 (target y)) ;;
  p <- lstsq_st la1 lb1 ;;
  let mu := recover_mu (fst p) (snd p) in
  let sigma := recover_sigma (snd p) in
  la2 <- new (ArrF (trial_curve x mu sigma)) ;;
  a2 <- get la2 ;;
  let amp := amplitude y (asF a2) in
  new (ArrF [amp; mu; sigma]).

(** [gauss_fit(x, y, sorted)]: returns the location of the new
    three-element array. *)
Definition gauss_fit_st (lx ly : loc) (sorted : bool) : M loc :=
  p <- preprocess_st lx ly sorted ;;
  fit_core_st (fst p) (snd p).

(** [model(x, a, mu, sigma)]: returns the location of the new array. *)
Definition model_st (lx : loc) (a mu sigma : float64) : M loc :=
  ax <- get lx ;;
  new (ArrF (model (as1 ax) a mu sigma)).

End Program.

End Store.
Import Store.

(** ** Notions used in the statements *)

(** The combination [al * column0 + be * column1] of the two columns. *)
Definition lin_comb (al be : R) (a : list (R * R)) : list R :=
  map (fun r => al * fst r + be * snd r) a.

(** The bell curve of height one on the reals, for [sigma <> 0]. *)
Definition bell_R (mu sigma xi : R) : R :=
  exp (- (1 / 2) * (((xi - mu) / sigma) * ((xi - mu) / sigma))).


(** The array [c * y]. *)
Definition scale (c : R) (y : list R) : list R := map (Rmult c) y.

(** The matrix [c * a]. *)
Definition scale_rows (c : R) (a : list (R * R)) : list (R * R) :=
  map (fun r => (c * fst r, c * snd r)) a.

(** A store with the arrays [[0, 1, 2]] at location 0 and [[2, 1, 2]] at
    location 1, and a second one that holds them at locations 2 and 0. *)
Definition example_store : store :=
  mkStore (upd 1%nat (Arr1 [2; 1; 2]) (fun _ => Arr1 [0; 1; 2])) 2%nat.

Definition example_store' : store :=
  mkStore (upd 2%nat (Arr1 [0; 1; 2]) (fun _ => Arr1 [2; 1; 2])) 3%nat.

(** The array [x + t]. *)
Definition shift (t : R) (x : list R) : list R := map (fun xi => xi + t) x.

(** The matrix [a] with [t] times its first column added to the second. *)
Definition shear (t : R) (a : list (R * R)) : list (R * R) :=
  map (fun r => (fst r, snd r + t * fst r)) a.

(** The matrix [a] with its columns multiplied by [k] and by [k * k]. *)
Definition stretch (k : R) (a : list (R * R)) : list (R * R) :=
  map (fun r => (k * fst r, k * k * snd r)) a.

(** * Properties *)

(** ** Arrays *)

Section ArrayFacts.

Context {A B C : Type}.

Lemma length_map2 (f : A -> B -> C) (u : list A) (v : list B) :
  length (map2 f u v) = Nat.min (length u) (length v).
Proof.
  revert v; induction u as [|a u IH]; intros [|b v]; simpl; auto.
Qed.

Lemma nth_map2 (f : A -> B -> C) (u : list A) (v : list B) i da db dc :
  (i < length u)%nat -> (i < length v)%nat ->
  nth i (map2 f u v) dc = f (nth i u da) (nth i v db).
Proof.
  revert v i; induction u as [|a u IH]; intros [|b v] [|i]; simpl;
    try lia; auto.
  intros; apply IH; lia.
Qed.

Lemma length_removelast (z : list A) :
  length (removelast z) = (length z - 1)%nat.
Proof.
  induction z as [|a [|b z] IH]; simpl in *; auto. lia.
Qed.

Lemma nth_removelast (z : list A) i d :
  (S i < length z)%nat -> nth i (removelast z) d = nth i z d.
Proof.
  revert i; induction z as [|a [|b z] IH]; intros i Hi; simpl in *; try lia.
  destruct i as [|i]; auto. apply IH; lia.
Qed.

Lemma nth_tl (z : list A) i d : nth i (tl z) d = nth (S i) z d.
Proof. destruct z; simpl; auto. destruct i; auto. Qed.

Lemma length_tl (z : list A) : length (tl z) = (length z - 1)%nat.
Proof. destruct z; simpl; lia. Qed.

Lemma map_fst_combine (u : list A) (v : list B) :
  length u = length v -> map fst (combine u v) = u.
Proof.
  revert v; induction u as [|a u IH]; intros [|b v]; simpl; try easy.
  intros H; f_equal; apply IH; lia.
Qed.

Lemma map_snd_combine (u : list A) (v : list B) :
  length u = length v -> map snd (combine u v) = v.
Proof.
  revert v; induction u as [|a u IH]; intros [|b v]; simpl; try easy.
  intros H; f_equal; apply IH; lia.
Qed.

End ArrayFacts.

Lemma length_diff (x : list R) : length (diff x) = (length x - 1)%nat.
Proof.
  induction x as [|a [|b x] IH]; simpl in *; auto. lia.
Qed.

Lemma nth_diff (x : list R) i :
  (S i < length x)%nat -> nth i (diff x) 0 = nth (S i) x 0 - nth i x 0.
Proof.
  revert i; induction x as [|a [|b x] IH]; intros i Hi; simpl in *; try lia.
  destruct i as [|i]; auto. apply IH; lia.
Qed.

Lemma length_cumsum_from acc v : length (cumsum_from acc v) = length v.
Proof. revert acc; induction v; intros; simpl; auto. Qed.

Lemma length_cumsum v : length (cumsum v) = length v.
Proof. destruct v; simpl; auto using length_cumsum_from. Qed.

Lemma nth_cumsum_from_0 acc v :
  (0 < length v)%nat -> nth 0 (cumsum_from acc v) 0 = acc + nth 0 v 0.
Proof. destruct v; simpl; auto. lia. Qed.

Lemma nth_cumsum_from_S acc v i :
  (S i < length v)%nat ->
  nth (S i) (cumsum_from acc v) 0
  = nth i (cumsum_from acc v) 0 + nth (S i) v 0.
Proof.
  revert acc i; induction v as [|a v IH]; intros acc i Hi; simpl in *;
    try lia.
  destruct i as [|i].
  - apply nth_cumsum_from_0. lia.
  - apply IH. lia.
Qed.

Lemma nth_cumsum_0 v : nth 0 (cumsum v) 0 = nth 0 v 0.
Proof. destruct v; auto. Qed.

Lemma nth_cumsum_S v i :
  (S i < length v)%nat ->
  nth (S i) (cumsum v) 0 = nth i (cumsum v) 0 + nth (S i) v 0.
Proof.
  destruct v as [|a v]; simpl; try lia. intros Hi.
  destruct i as [|i].
  - apply nth_cumsum_from_0. lia.
  - apply nth_cumsum_from_S. lia.
Qed.

(** The increments summed by [cumtrapz] are the trapezoid areas. *)
Lemma nth_trapezoids (z d : list R) i :
  (S i < length z)%nat -> (i < length d)%nat ->
  nth i (map2 Rmult (map2 Rplus (tl z) (removelast z)) d) 0
  = (nth (S i) z 0 + nth i z 0) * nth i d 0.
Proof.
  intros Hz Hd.
  rewrite (nth_map2 _ _ _ _ 0 0); auto.
  2: rewrite length_map2, length_tl, length_removelast; lia.
  rewrite (nth_map2 _ _ _ _ 0 0).
  - now rewrite nth_tl, nth_removelast.
  - rewrite length_tl; lia.
  - rewrite length_removelast; lia.
Qed.

Lemma length_cumtrapz (z d : list R) :
  length d = (length z - 1)%nat -> length (cumtrapz z d) = (length z - 1)%nat.
Proof.
  intros H. unfold cumtrapz.
  rewrite length_cumsum, !length_map2, length_tl, length_removelast. lia.
Qed.

(** [cumtrapz], shifted by the zero of row 0, follows the recurrence. *)
Lemma cumtrapz_cum_spec (z d : list R) i :
  length d = (length z - 1)%nat -> (i < length z)%nat ->
  nth i (0 :: cumtrapz z d) 0
  = cum_spec (fun k => nth k z 0) (fun k => nth k d 0) i.
Proof.
  intros Hd. induction i as [|i IH]; intros Hi; auto.
  assert (Hlen : length (map2 Rmult (map2 Rplus (tl z) (removelast z)) d)
                 = (length z - 1)%nat).
  { rewrite !length_map2, length_tl, length_removelast. lia. }
  change (cum_spec _ _ (S i)) with
    (cum_spec (fun k => nth k z 0) (fun k => nth k d 0) i
     + (nth (S i) z 0 + nth i z 0) * nth i d 0).
  rewrite <- IH by lia. simpl nth at 1. unfold cumtrapz.
  destruct i as [|i].
  - rewrite nth_cumsum_0, nth_trapezoids by lia. simpl. ring.
  - rewrite nth_cumsum_S by lia. rewrite nth_trapezoids by lia. reflexivity.
Qed.

Lemma nth_map_lt {A B : Type} (f : A -> B) (l : list A) i da db :
  (i < length l)%nat -> nth i (map f l) db = f (nth i l da).
Proof.
  revert i; induction l as [|a l IH]; intros [|i] Hi; simpl in *; try lia;
    auto.
  apply IH; lia.
Qed.

Lemma cum_spec_ext (z z' d d' : nat -> R) n :
  (forall k, (k <= n)%nat -> z k = z' k) ->
  (forall k, (k < n)%nat -> d k = d' k) ->
  cum_spec z d n = cum_spec z' d' n.
Proof.
  induction n as [|n IH]; intros Hz Hd; simpl; auto.
  rewrite IH, (Hz (S n)), (Hz n), (Hd n) by (auto; lia). reflexivity.
Qed.

Lemma length_half_steps x : length (half_steps x) = (length x - 1)%nat.
Proof. unfold half_steps. now rewrite length_map, length_diff. Qed.

Lemma nth_half_steps x i :
  (S i < length x)%nat -> nth i (half_steps x) 0 = d_spec x i.
Proof.
  intros Hi. unfold half_steps, d_spec.
  rewrite (nth_map_lt _ _ _ 0) by (rewrite length_diff; lia).
  now rewrite nth_diff.
Qed.

Lemma length_design x y :
  length x = length y -> (1 <= length x)%nat ->
  length (design x y) = length x.
Proof.
  intros Hxy Hx. unfold design. simpl.
  rewrite length_combine, !length_cumtrapz;
    rewrite ?length_half_steps, ?length_map2; lia.
Qed.

Lemma column0_design x y :
  length x = length y ->
  column0 (design x y) = 0 :: cumtrapz y (half_steps x).
Proof.
  intros Hxy. unfold design, column0. simpl. f_equal.
  apply map_fst_combine.
  rewrite !length_cumtrapz; rewrite ?length_half_steps, ?length_map2; lia.
Qed.

Lemma column1_design x y :
  length x = length y ->
  column1 (design x y) = 0 :: cumtrapz (map2 Rmult x y) (half_steps x).
Proof.
  intros Hxy. unfold design, column1. simpl. f_equal.
  apply map_snd_combine.
  rewrite !length_cumtrapz; rewrite ?length_half_steps, ?length_map2; lia.
Qed.

Lemma nth_column0_design x y i :
  length x = length y -> (i < length x)%nat ->
  nth i (column0 (design x y)) 0 = S_y_spec x y i.
Proof.
  intros Hxy Hi. rewrite column0_design by assumption.
  rewrite cumtrapz_cum_spec by (rewrite ?length_half_steps; lia).
  apply cum_spec_ext; auto.
  intros k Hk. apply nth_half_steps. lia.
Qed.

Lemma nth_column1_design x y i :
  length x = length y -> (i < length x)%nat ->
  nth i (column1 (design x y)) 0 = S_xy_spec x y i.
Proof.
  intros Hxy Hi. rewrite column1_design by assumption.
  rewrite cumtrapz_cum_spec
    by (rewrite ?length_half_steps, ?length_map2; lia).
  apply cum_spec_ext.
  - intros k Hk. unfold xy_spec. apply nth_map2; lia.
  - intros k Hk. apply nth_half_steps. lia.
Qed.

(** ** C3: the design matrix holds the cumulative trapezoidal integrals *)

(** C3.  For [x] and [y] of the same length [N >= 2], the array [a1] built
    on lines 105 to 112 has [N] rows, its first column is the sequence
    [S_y] and its second column the sequence [S_xy] of the specification's
    recurrences. *)
Theorem design_columns_are_cumulative_integrals (x y : list R) :
  length x = length y -> (2 <= length x)%nat ->
  length (design x y) = length x /\
  forall i, (i < length x)%nat ->
    nth i (column0 (design x y)) 0 = S_y_spec x y i /\
    nth i (column1 (design x y)) 0 = S_xy_spec x y i.
Proof.
  intros Hxy HN. split; [apply length_design; lia|].
  intros i Hi. split.
  - now apply nth_column0_design.
  - now apply nth_column1_design.
Qed.

Lemma design_columns_witness :
  length (design [0; 1; 2] [2; 1; 2]) = 3%nat /\
  forall i, (i < 3)%nat ->
    nth i (column0 (design [0; 1; 2] [2; 1; 2])) 0
    = S_y_spec [0; 1; 2] [2; 1; 2] i /\
    nth i (column1 (design [0; 1; 2] [2; 1; 2])) 0
    = S_xy_spec [0; 1; 2] [2; 1; 2] i.
Proof.
  apply (design_columns_are_cumulative_integrals [0; 1; 2] [2; 1; 2]).
  - reflexivity.
  - simpl; lia.
Defined.

(** ** Least squares *)

Lemma dot_comm u v : dot u v = dot v u.
Proof.
  revert v; induction u as [|a u IH]; intros [|b v]; simpl; auto.
  rewrite IH. ring.
Qed.

Lemma dot_self_nonneg w : 0 <= dot w w.
Proof. induction w as [|c w IH]; simpl; nra. Qed.

Lemma dot_self_zero w b : dot w w = 0 -> dot w b = 0.
Proof.
  revert b; induction w as [|c w IH]; intros [|e b] H; simpl in *; auto.
  pose proof (dot_self_nonneg w) as Hw.
  assert (Hc : c = 0) by nra.
  rewrite IH by nra. subst c. ring.
Qed.

Lemma dot_lin_comb al be a b :
  dot (lin_comb al be a) b
  = al * dot (column0 a) b + be * dot (column1 a) b.
Proof.
  revert b; induction a as [|[u v] a IH]; intros [|c b]; simpl;
    try rewrite IH; try ring.
Qed.

Lemma dot_lin_comb_self al be a :
  dot (lin_comb al be a) (lin_comb al be a)
  = al * al * dot (column0 a) (column0 a)
    + 2 * al * be * dot (column0 a) (column1 a)
    + be * be * dot (column1 a) (column1 a).
Proof.
  induction a as [|[u v] a IH]; simpl; try rewrite IH; ring.
Qed.

Lemma residual2_expand a b p :
  length a = length b ->
  residual2 a b p
  = fst p * fst p * dot (column0 a) (column0 a)
    + 2 * fst p * snd p * dot (column0 a) (column1 a)
    + snd p * snd p * dot (column1 a) (column1 a)
    - 2 * fst p * dot (column0 a) b
    - 2 * snd p * dot (column1 a) b
    + dot b b.
Proof.
  revert b; induction a as [|[u v] a IH]; intros [|c b] H; simpl in *;
    try discriminate; try ring.
  rewrite IH by lia. ring.
Qed.

(** The solution returned by [lstsq] satisfies the normal equations
    [G p = t], whatever the rank of the matrix. *)
Lemma lstsq_normal_equations a b :
  let p := lstsq a b in
  dot (column0 a) (column0 a) * fst p + dot (column0 a) (column1 a) * snd p
  = dot (column0 a) b /\
  dot (column0 a) (column1 a) * fst p + dot (column1 a) (column1 a) * snd p
  = dot (column1 a) b.
Proof.
  unfold lstsq.
  set (s11 := dot (column0 a) (column0 a)).
  set (s12 := dot (column0 a) (column1 a)).
  set (s22 := dot (column1 a) (column1 a)).
  set (t1 := dot (column0 a) b).
  set (t2 := dot (column1 a) b).
  destruct (Req_dec_T (s11 * s22 - s12 * s12) 0) as [Hdet|Hdet].
  - (* rank < 2: the columns are linearly dependent *)
    assert (H1 : - s12 * t1 + s11 * t2 = 0).
    { unfold t1, t2. rewrite <- (dot_lin_comb (- s12) s11 a b).
      apply dot_self_zero.
      rewrite dot_lin_comb_self. fold s11 s12 s22.
      replace (_ + _ + _) with (s11 * (s11 * s22 - s12 * s12)) by ring.
      rewrite Hdet; ring. }
    assert (H2 : s22 * t1 + - s12 * t2 = 0).
    { unfold t1, t2. rewrite <- (dot_lin_comb s22 (- s12) a b).
      apply dot_self_zero.
      rewrite dot_lin_comb_self. fold s11 s12 s22.
      replace (_ + _ + _) with (s22 * (s11 * s22 - s12 * s12)) by ring.
      rewrite Hdet; ring. }
    destruct (Req_dec_T (s11 + s22) 0) as [Htr|Htr]; simpl.
    + pose proof (dot_self_nonneg (column0 a)) as P1.
      pose proof (dot_self_nonneg (column1 a)) as P2.
      fold s11 in P1. fold s22 in P2.
      assert (Z1 : s11 = 0) by lra. assert (Z2 : s22 = 0) by lra.
      unfold t1, t2. rewrite !dot_self_zero by assumption. lra.
    + split; field_simplify_eq; auto; nra.
  - simpl. split; field; auto.
Qed.

(** It minimises the residual norm over all coefficient pairs. *)
Lemma lstsq_least_squares a b q :
  length a = length b ->
  residual2 a b (lstsq a b) <= residual2 a b q.
Proof.
  intros Hlen.
  destruct (lstsq_normal_equations a b) as [E1 E2].
  rewrite !residual2_expand by assumption.
  pose proof (dot_self_nonneg
                (lin_comb (fst q - fst (lstsq a b))
                          (snd q - snd (lstsq a b)) a)) as P.
  rewrite dot_lin_comb_self in P.
  rewrite <- E1, <- E2. nra.
Qed.

(** Among the pairs with the least residual it is the one of least norm. *)
Lemma lstsq_minimum_norm a b q :
  length a = length b ->
  residual2 a b q <= residual2 a b (lstsq a b) ->
  fst (lstsq a b) * fst (lstsq a b) + snd (lstsq a b) * snd (lstsq a b)
  <= fst q * fst q + snd q * snd q.
Proof.
  intros Hlen Hq.
  destruct (lstsq_normal_equations a b) as [E1 E2].
  rewrite !residual2_expand in Hq by assumption.
  set (d1 := fst q - fst (lstsq a b)).
  set (d2 := snd q - snd (lstsq a b)).
  pose proof (dot_self_nonneg (lin_comb d1 d2 a)) as P.
  assert (Z : dot (lin_comb d1 d2 a) (lin_comb d1 d2 a) = 0).
  { rewrite dot_lin_comb_self in *. unfold d1, d2 in *.
    rewrite <- E1, <- E2 in Hq. nra. }
  pose proof (dot_self_zero _ b Z) as Tb.
  pose proof (dot_self_zero _ (column0 a) Z) as T0.
  pose proof (dot_self_zero _ (column1 a) Z) as T1.
  rewrite dot_lin_comb in Tb, T0, T1.
  assert (Hsq : forall r : R, 0 <= r * r) by (intros r; apply Rle_0_sqr).
  pose proof (Hsq d1) as S1. pose proof (Hsq d2) as S2.
  unfold lstsq in *.
  set (s11 := dot (column0 a) (column0 a)) in *.
  set (s12 := dot (column0 a) (column1 a)) in *.
  set (s22 := dot (column1 a) (column1 a)) in *.
  set (t1 := dot (column0 a) b) in *.
  set (t2 := dot (column1 a) b) in *.
  replace (dot (column1 a) (column0 a)) with s12 in T0
    by apply dot_comm.
  destruct (Req_dec_T (s11 * s22 - s12 * s12) 0) as [Hdet|Hdet].
  - destruct (Req_dec_T (s11 + s22) 0) as [Htr|Htr]; simpl in *.
    + pose proof (Hsq (fst q)). pose proof (Hsq (snd q)). lra.
    + assert (Hp : t1 / (s11 + s22) * d1 + t2 / (s11 + s22) * d2 = 0).
      { replace (_ + _) with ((d1 * t1 + d2 * t2) / (s11 + s22))
          by (field; assumption).
        rewrite Tb. field; assumption. }
      unfold d1, d2 in *. simpl in *. nra.
  - simpl in *.
    assert (D1 : (s11 * s22 - s12 * s12) * d1 = 0).
    { replace (_ * d1)
        with (s22 * (d1 * s11 + d2 * s12) - s12 * (d1 * s12 + d2 * s22))
        by ring.
      rewrite T0, T1. ring. }
    assert (D2 : (s11 * s22 - s12 * s12) * d2 = 0).
    { replace (_ * d2)
        with (s11 * (d1 * s12 + d2 * s22) - s12 * (d1 * s11 + d2 * s12))
        by ring.
      rewrite T0, T1. ring. }
    apply Rmult_integral in D1. apply Rmult_integral in D2.
    destruct D1 as [D1|D1]; [contradiction|].
    destruct D2 as [D2|D2]; [contradiction|].
    unfold d1, d2 in *. simpl in *.
    assert (fst q = (s22 * t1 - s12 * t2) / (s11 * s22 - s12 * s12)) by lra.
    assert (snd q = (s11 * t2 - s12 * t1) / (s11 * s22 - s12 * s12)) by lra.
    rewrite <- H, <- H0. lra.
Qed.

(** ** The linear problem of step 4 *)

Lemma sum_below_ext f g n :
  (forall i, (i < n)%nat -> f i = g i) -> sum_below f n = sum_below g n.
Proof.
  induction n as [|n IH]; intros H; simpl; auto.
  rewrite IH, (H n) by (auto; intros; apply H; lia). reflexivity.
Qed.

Lemma sum_below_shift f n :
  sum_below f (S n) = f O + sum_below (fun i => f (S i)) n.
Proof.
  induction n as [|n IH]; simpl in *; try ring.
  rewrite IH. ring.
Qed.

Lemma residual2_sum_below a b p :
  length a = length b ->
  residual2 a b p
  = sum_below
      (fun i =>
         let r := nth i (column0 a) 0 * fst p + nth i (column1 a) 0 * snd p
                  - nth i b 0 in
         r * r)
      (length a).
Proof.
  revert b; induction a as [|[u v] a IH]; intros [|c b] H; simpl in H;
    try discriminate; auto.
  simpl length. rewrite sum_below_shift. simpl. rewrite IH by lia.
  reflexivity.
Qed.

Lemma nth_target y i :
  (i < length y)%nat -> nth i (target y) 0 = nth i y 0 - nth 0 y 0.
Proof.
  intros Hi. unfold target. rewrite (nth_map_lt _ _ _ 0) by assumption.
  destruct y; reflexivity.
Qed.

Lemma length_target y : length (target y) = length y.
Proof. apply length_map. Qed.

(** The residual of the system handed to [lstsq] is the residual of the
    specification's linear problem. *)
Lemma residual2_design x y p :
  length x = length y -> (1 <= length x)%nat ->
  residual2 (design x y) (target y) p = spec_residual2 x y p.
Proof.
  intros Hxy HN.
  rewrite residual2_sum_below
    by (rewrite length_design, length_target; auto).
  rewrite length_design by assumption.
  apply sum_below_ext. intros i Hi. cbv zeta.
  rewrite nth_column0_design, nth_column1_design, nth_target by lia.
  reflexivity.
Qed.

(** ** Preprocessing and recovery *)

Lemma length_insert_by_x p l : length (insert_by_x p l) = S (length l).
Proof.
  induction l as [|q l IH]; simpl; auto.
  destruct (Rle_dec (fst p) (fst q)); simpl; auto.
Qed.

Lemma length_sort_by_x l : length (sort_by_x l) = length l.
Proof.
  induction l as [|p l IH]; simpl; auto.
  now rewrite length_insert_by_x, IH.
Qed.

Lemma preprocess_ok x y s x' y' :
  preprocess x y s = Ok (x', y') ->
  length x' = length y' /\ (2 <= length x')%nat.
Proof.
  unfold preprocess.
  destruct (Nat.eqb_spec (length x) (length y)) as [E|E]; simpl;
    try discriminate.
  destruct (Nat.ltb_spec (length x) 2) as [L|L]; simpl; try discriminate.
  destruct s; intros H; inversion H; subst; auto.
  rewrite !length_map, length_sort_by_x, length_combine. lia.
Qed.

Lemma preprocess_sorted x y :
  length x = length y -> (2 <= length x)%nat ->
  preprocess x y true = Ok (x, y).
Proof.
  intros E L. unfold preprocess.
  destruct (Nat.eqb_spec (length x) (length y)); try contradiction.
  destruct (Nat.ltb_spec (length x) 2); try lia. reflexivity.
Qed.

Lemma gauss_fit_ok x y s x' y' :
  preprocess x y s = Ok (x', y') -> gauss_fit x y s = Ok (fit_core x' y').
Proof. unfold gauss_fit. now intros ->. Qed.

Lemma gauss_fit_inv x y s r :
  gauss_fit x y s = Ok r ->
  exists x' y', preprocess x y s = Ok (x', y') /\ r = fit_core x' y'.
Proof.
  unfold gauss_fit. destruct (preprocess x y s) as [[x' y']|e];
    try discriminate.
  intros H; inversion H. now exists x', y'.
Qed.

Lemma recover_mu_nonzero A B : B <> 0 -> recover_mu A B = Fin (- A / B).
Proof.
  intros HB. unfold recover_mu. simpl.
  destruct (Req_dec_T B 0); [contradiction | reflexivity].
Qed.

Lemma recover_sigma_neg B :
  B < 0 -> recover_sigma B = Fin (sqrt (- 1 / B)) /\ 0 < sqrt (- 1 / B).
Proof.
  intros HB. unfold recover_sigma. simpl.
  destruct (Req_dec_T B 0); [lra|].
  assert (0 < - 1 / B).
  { unfold Rdiv. replace (- 1 * / B) with (/ - B).
    - apply Rinv_0_lt_compat; lra.
    - field; lra. }
  simpl. destruct (Rlt_dec (- 1 / B) 0); [lra|].
  split; auto using sqrt_lt_R0.
Qed.

Lemma recover_sigma_nonneg B : 0 <= B -> recover_sigma B = NaN.
Proof.
  intros HB. unfold recover_sigma. simpl.
  destruct (Req_dec_T B 0) as [Z|NZ].
  - destruct (total_order_T (- 1) 0) as [[L|E]|G]; try lra. reflexivity.
  - simpl. destruct (Rlt_dec (- 1 / B) 0) as [L|NL]; auto.
    exfalso. apply NL.
    assert (0 < / B) by (apply Rinv_0_lt_compat; lra).
    unfold Rdiv. nra.
Qed.

(** A finite [sigma] comes from a negative [B], and is positive. *)
Lemma recover_sigma_finite B s :
  recover_sigma B = Fin s -> B < 0 /\ s = sqrt (- 1 / B) /\ 0 < s.
Proof.
  intros H. destruct (Rlt_dec B 0) as [L|NL].
  - destruct (recover_sigma_neg B L) as [E P]. rewrite E in H.
    inversion H; subst. auto.
  - rewrite recover_sigma_nonneg in H by lra. discriminate.
Qed.

(** ** C4: the linear problem and the recovery of [mu] and [sigma] *)

(** C4.  On the preprocessed arrays [x'], [y'], [gauss_fit] hands to
    [lstsq] the matrix [design x' y'] and the vector [target y'], that is
    the linear problem with design columns [S_y], [S_xy] and target
    [y - y[0]]; the pair [(A, B)] it obtains minimises the squared residual
    of that problem; and the fit returns [mu = -A / B] and
    [sigma = sqrt(-1 / B)] (finite numbers when [B < 0]). *)
Theorem gauss_fit_linear_problem_and_recovery (x y : list R) (s : bool)
    (x' y' : list R) :
  preprocess x y s = Ok (x', y') ->
  exists A B amp,
    lstsq (design x' y') (target y') = (A, B) /\
    (forall i, (i < length x')%nat ->
       nth i (design x' y') (0, 0) = (S_y_spec x' y' i, S_xy_spec x' y' i) /\
       nth i (target y') 0 = nth i y' 0 - nth 0 y' 0) /\
    (forall p, spec_residual2 x' y' (A, B) <= spec_residual2 x' y' p) /\
    gauss_fit x y s
    = Ok (amp, fdiv (fneg (Fin A)) (Fin B), fsqrt (fdiv (Fin (-1)) (Fin B))) /\
    (B < 0 ->
       fdiv (fneg (Fin A)) (Fin B) = Fin (- A / B) /\
       fsqrt (fdiv (Fin (-1)) (Fin B)) = Fin (sqrt (- 1 / B))).
Proof.
  intros Hpre. destruct (preprocess_ok _ _ _ _ _ Hpre) as [Hlen HN].
  destruct (lstsq (design x' y') (target y')) as [A B] eqn:E.
  exists A, B, (amplitude y' (trial_curve x' (recover_mu A B)
                                          (recover_sigma B))).
  split; [reflexivity|]. split; [|split; [|split]].
  - intros i Hi. split; [|apply nth_target; lia].
    rewrite (surjective_pairing (nth i (design x' y') (0, 0))).
    change (0, 0) with (@pair R R 0 0) at 1.
    rewrite <- (map_nth fst), <- (map_nth snd). simpl fst; simpl snd.
    f_equal; [apply nth_column0_design | apply nth_column1_design]; auto.
  - intros p. rewrite <- !residual2_design by (auto; lia).
    rewrite <- E. apply lstsq_least_squares.
    rewrite length_design, length_target; auto; lia.
  - rewrite (gauss_fit_ok _ _ _ _ _ Hpre). unfold fit_core. rewrite E.
    reflexivity.
  - intros HB. split.
    + apply recover_mu_nonzero; lra.
    + apply (recover_sigma_neg B HB).
Qed.

Lemma linear_problem_witness :
  exists A B amp,
    lstsq (design [0; 1; 2] [0; 1; 2]) (target [0; 1; 2]) = (A, B) /\
    (forall i, (i < length [0; 1; 2])%nat ->
       nth i (design [0; 1; 2] [0; 1; 2]) (0, 0)
       = (S_y_spec [0; 1; 2] [0; 1; 2] i, S_xy_spec [0; 1; 2] [0; 1; 2] i) /\
       nth i (target [0; 1; 2]) 0 = nth i [0; 1; 2] 0 - nth 0 [0; 1; 2] 0) /\
    (forall p, spec_residual2 [0; 1; 2] [0; 1; 2] (A, B)
               <= spec_residual2 [0; 1; 2] [0; 1; 2] p) /\
    gauss_fit [0; 1; 2] [0; 1; 2] true
    = Ok (amp, fdiv (fneg (Fin A)) (Fin B), fsqrt (fdiv (Fin (-1)) (Fin B))) /\
    (B < 0 ->
       fdiv (fneg (Fin A)) (Fin B) = Fin (- A / B) /\
       fsqrt (fdiv (Fin (-1)) (Fin B)) = Fin (sqrt (- 1 / B))).
Proof.
  apply (gauss_fit_linear_problem_and_recovery [0; 1; 2] [0; 1; 2] true
           [0; 1; 2] [0; 1; 2]).
  reflexivity.
Defined.

(** ** The finite and the non-finite path through lines 118 to 124 *)

Lemma bell_finite mu sigma xi :
  sigma <> 0 -> bell (Fin mu) (Fin sigma) xi = Fin (bell_R mu sigma xi).
Proof.
  intros Hs. unfold bell, bell_R, fsqr, fsub. simpl.
  destruct (Req_dec_T sigma 0); [contradiction | reflexivity].
Qed.

Lemma trial_curve_finite x mu sigma :
  sigma <> 0 ->
  trial_curve x (Fin mu) (Fin sigma) = map Fin (map (bell_R mu sigma) x).
Proof.
  intros Hs. unfold trial_curve. rewrite map_map.
  apply map_ext. intros xi. now apply bell_finite.
Qed.

Lemma fdot_finite u v : fdot (map Fin u) (map Fin v) = Fin (dot u v).
Proof.
  revert v; induction u as [|a u IH]; intros [|b v]; simpl; auto.
  now rewrite IH.
Qed.

Lemma amplitude_finite y g :
  dot g g <> 0 -> amplitude y (map Fin g) = Fin (dot y g / dot g g).
Proof.
  intros Hg. unfold amplitude. rewrite !fdot_finite. simpl.
  destruct (Req_dec_T (dot g g) 0); [contradiction | reflexivity].
Qed.

Lemma dot_bell_pos mu sigma x :
  x <> [] -> 0 < dot (map (bell_R mu sigma) x) (map (bell_R mu sigma) x).
Proof.
  destruct x as [|a x]; [congruence | intros _]. simpl.
  pose proof (dot_self_nonneg (map (bell_R mu sigma) x)).
  assert (0 < bell_R mu sigma a) by apply exp_pos. nra.
Qed.

Lemma fit_core_finite x y A B :
  lstsq (design x y) (target y) = (A, B) -> B < 0 -> x <> [] ->
  let mu := - A / B in
  let sigma := sqrt (- 1 / B) in
  let g := map (bell_R mu sigma) x in
  fit_core x y = (Fin (dot y g / dot g g), Fin mu, Fin sigma).
Proof.
  intros E HB Hx mu sigma g. subst mu sigma g. unfold fit_core. rewrite E.
  destruct (recover_sigma_neg B HB) as [Es Ps].
  rewrite recover_mu_nonzero, Es by lra.
  rewrite trial_curve_finite by lra.
  rewrite amplitude_finite; [reflexivity|].
  pose proof (dot_bell_pos (- A / B) (sqrt (- 1 / B)) x Hx). lra.
Qed.

Lemma fdiv_nan_r v : fdiv v NaN = NaN.
Proof. destruct v; reflexivity. Qed.

Lemma bell_nan_sigma mu xi : bell mu NaN xi = NaN.
Proof. unfold bell. now rewrite fdiv_nan_r. Qed.

Lemma fdot_nan_r v w :
  v <> [] -> w <> [] -> Forall (eq NaN) w -> fdot v w = NaN.
Proof.
  destruct v as [|a v]; [congruence|]. destruct w as [|b w]; [congruence|].
  intros _ _ H. inversion H; subst. simpl. destruct a; reflexivity.
Qed.

Lemma fit_core_not_finite x y A B :
  lstsq (design x y) (target y) = (A, B) -> 0 <= B -> x <> [] -> y <> [] ->
  fit_core x y = (NaN, recover_mu A B, NaN).
Proof.
  intros E HB Hx Hy. unfold fit_core. rewrite E.
  rewrite recover_sigma_nonneg by assumption.
  unfold amplitude. rewrite fdot_nan_r; auto.
  - destruct y; [congruence | discriminate].
  - destruct x; [congruence | discriminate].
  - unfold trial_curve. apply Forall_forall. intros v Hv.
    apply in_map_iff in Hv. destruct Hv as [xi [<- _]].
    now rewrite bell_nan_sigma.
Qed.

Lemma length_nonempty {A : Type} (l : list A) : (1 <= length l)%nat -> l <> [].
Proof. destruct l; simpl; [lia | discriminate]. Qed.

(** ** C5: the amplitude is the least-squares projection *)




(** ** Worked inputs *)

(** Evaluates [lstsq] on a system with numeric entries: the branch on the
    determinant is settled by [lra], the coefficients by [field]. *)
Ltac eval_lstsq :=
  unfold lstsq, design, target, half_steps, cumtrapz, column0, column1;
  cbn [map map2 diff cumsum cumsum_from dot tl removelast hd combine fst snd];
  repeat match goal with
    | |- context [Req_dec_T ?d 0] =>
        let H := fresh "Hd" in
        destruct (Req_dec_T d 0) as [H|H]; try (exfalso; lra)
    end;
  f_equal; try field_simplify_eq; try lra.

(** An upward-opening sample: [B] comes out positive. *)
Lemma lstsq_valley :
  lstsq (design [0; 1; 2] [2; 1; 2]) (target [2; 1; 2]) = (-1, 1).
Proof. eval_lstsq. Qed.

(** The samples of the line [y = x]. *)
Lemma lstsq_line :
  lstsq (design [0; 1; 2] [0; 1; 2]) (target [0; 1; 2]) = (4, -2).
Proof. eval_lstsq. Qed.

(** Constant samples. *)
Lemma lstsq_constant :
  lstsq (design [0; 1; 2] [1; 1; 1]) (target [1; 1; 1]) = (0, 0).
Proof. eval_lstsq. Qed.

(** An asymmetric bump, in ascending and in descending order of [x]. *)
Lemma lstsq_bump_ascending :
  lstsq (design [0; 1; 2; 3] [0; 2; 1; 0]) (target [0; 2; 1; 0])
  = (58 / 9, - 44 / 9).
Proof. eval_lstsq. Qed.

Lemma lstsq_bump_descending :
  lstsq (design [3; 2; 1; 0] [0; 1; 2; 0]) (target [0; 1; 2; 0])
  = (50 / 9, - 38 / 9).
Proof. eval_lstsq. Qed.

Lemma gauss_fit_valley :
  gauss_fit [0; 1; 2] [2; 1; 2] true = Ok (NaN, Fin 1, NaN).
Proof.
  rewrite (gauss_fit_ok _ _ _ [0; 1; 2] [2; 1; 2]) by reflexivity.
  rewrite (fit_core_not_finite _ _ _ _ lstsq_valley);
    try discriminate; try lra.
  rewrite recover_mu_nonzero by lra.
  replace (- -1 / 1) with 1 by field. reflexivity.
Qed.

Lemma gauss_fit_line :
  gauss_fit [0; 1; 2] [0; 1; 2] true
  = Ok (Fin (dot [0; 1; 2] (map (bell_R 2 (sqrt (1 / 2))) [0; 1; 2])
             / dot (map (bell_R 2 (sqrt (1 / 2))) [0; 1; 2])
                   (map (bell_R 2 (sqrt (1 / 2))) [0; 1; 2])),
        Fin 2, Fin (sqrt (1 / 2))).
Proof.
  rewrite (gauss_fit_ok _ _ _ [0; 1; 2] [0; 1; 2]) by reflexivity.
  rewrite (fit_core_finite _ _ _ _ lstsq_line); try discriminate; try lra.
  replace (- (4) / -2) with 2 by field.
  replace (- 1 / - 2) with (1 / 2) by field.
  reflexivity.
Qed.

Lemma gauss_fit_constant :
  gauss_fit [0; 1; 2] [1; 1; 1] true = Ok (NaN, NaN, NaN).
Proof.
  rewrite (gauss_fit_ok _ _ _ [0; 1; 2] [1; 1; 1]) by reflexivity.
  rewrite (fit_core_not_finite _ _ _ _ lstsq_constant);
    try discriminate; try lra.
  unfold recover_mu. simpl.
  destruct (Req_dec_T 0 0); [|congruence].
  destruct (total_order_T (- 0) 0) as [[L|E]|G]; try lra. reflexivity.
Qed.


(** ** C1: a non-negative [B] *)

(** C1, refuted as stated.  For [x = [0, 1, 2]], [y = [2, 1, 2]] the solve
    yields [B = 1 >= 0]; [gauss_fit] reports no failure: it returns the
    array [(nan, 1, nan)]. *)
Lemma nonnegative_B_is_not_reported :
  lstsq (design [0; 1; 2] [2; 1; 2]) (target [2; 1; 2]) = (-1, 1) /\
  0 <= 1 /\
  gauss_fit [0; 1; 2] [2; 1; 2] true = Ok (NaN, Fin 1, NaN) /\
  forall e, gauss_fit [0; 1; 2] [2; 1; 2] true <> Raise e.
Proof.
  split; [exact lstsq_valley|]. split; [lra|].
  split; [exact gauss_fit_valley|].
  intros e. rewrite gauss_fit_valley. discriminate.
Qed.

(** C1, amended.  When the solve on the preprocessed samples yields
    [B >= 0], [gauss_fit] raises nothing: it returns an array whose
    amplitude and [sigma] are not finite numbers; for [B > 0] they are both
    [nan] and [mu] is the finite number [-A / B]. *)
Theorem nonnegative_B_returns_nan (x y : list R) (s : bool)
    (x' y' : list R) (A B : R) :
  preprocess x y s = Ok (x', y') ->
  lstsq (design x' y') (target y') = (A, B) ->
  0 <= B ->
  exists amp mu sigma,
    gauss_fit x y s = Ok (amp, mu, sigma) /\
    ~ is_finite amp /\ ~ is_finite sigma /\
    (0 < B -> amp = NaN /\ mu = Fin (- A / B) /\ sigma = NaN).
Proof.
  intros Hpre E HB.
  destruct (preprocess_ok _ _ _ _ _ Hpre) as [Hlen HN].
  exists NaN, (recover_mu A B), NaN.
  rewrite (gauss_fit_ok _ _ _ _ _ Hpre).
  rewrite (fit_core_not_finite _ _ _ _ E HB)
    by (apply length_nonempty; lia).
  repeat split; auto.
  apply recover_mu_nonzero. lra.
Qed.

Lemma nonnegative_B_returns_nan_witness :
  exists amp mu sigma,
    gauss_fit [0; 1; 2] [2; 1; 2] true = Ok (amp, mu, sigma) /\
    ~ is_finite amp /\ ~ is_finite sigma /\
    amp = NaN /\ mu = Fin (- -1 / 1) /\ sigma = NaN.
Proof.
  destruct (nonnegative_B_returns_nan [0; 1; 2] [2; 1; 2] true
              [0; 1; 2] [2; 1; 2] (-1) 1 eq_refl lstsq_valley
              ltac:(lra))
    as [amp [mu [sigma [Hfit [Ha [Hs Hpos]]]]]].
  exists amp, mu, sigma. repeat split; auto; apply Hpos; lra.
Defined.

(** ** C2: constant and colinear samples *)

Lemma in_insert_by_x p q l : In p (insert_by_x q l) -> p = q \/ In p l.
Proof.
  induction l as [|r l IH]; simpl.
  - intros [H|[]]; auto.
  - destruct (Rle_dec (fst q) (fst r)); simpl; intros [H|H]; auto.
    destruct (IH H); auto.
Qed.

Lemma in_sort_by_x p l : In p (sort_by_x l) -> In p l.
Proof.
  induction l as [|q l IH]; simpl; auto.
  intros H. destruct (in_insert_by_x _ _ _ H); auto.
Qed.

Lemma preprocess_keeps_values (P : R -> Prop) x y s x' y' :
  preprocess x y s = Ok (x', y') -> Forall P y -> Forall P y'.
Proof.
  unfold preprocess.
  destruct (negb _ || _); try discriminate.
  destruct s; intros H Hy; inversion H; subst; auto.
  apply Forall_forall. intros v Hv.
  apply in_map_iff in Hv. destruct Hv as [[a b] [<- Hin]].
  apply in_sort_by_x, in_combine_r in Hin.
  rewrite Forall_forall in Hy. auto.
Qed.

Lemma target_constant c y : Forall (eq c) y -> Forall (eq 0) (target y).
Proof.
  intros Hy. unfold target. apply Forall_forall. intros v Hv.
  apply in_map_iff in Hv. destruct Hv as [yi [<- Hin]].
  rewrite Forall_forall in Hy.
  destruct y as [|y0 y]; [destruct Hin|]. simpl.
  rewrite <- (Hy yi Hin), <- (Hy y0 (or_introl eq_refl)). ring.
Qed.

Lemma dot_zero_r u b : Forall (eq 0) b -> dot u b = 0.
Proof.
  revert b; induction u as [|a u IH]; intros [|c b] H; simpl; auto.
  inversion H; subst. rewrite IH by assumption. ring.
Qed.

Lemma lstsq_zero_target a b : Forall (eq 0) b -> lstsq a b = (0, 0).
Proof.
  intros Hb. unfold lstsq.
  rewrite (dot_zero_r (column0 a) b), (dot_zero_r (column1 a) b)
    by assumption.
  destruct (Req_dec_T _ 0) as [Hd|Hd].
  - destruct (Req_dec_T _ 0) as [Ht|Ht]; auto. f_equal; field; auto.
  - f_equal; field; auto.
Qed.

Lemma recover_mu_zero : recover_mu 0 0 = NaN.
Proof.
  unfold recover_mu. simpl.
  destruct (Req_dec_T 0 0); [|congruence].
  destruct (total_order_T (- 0) 0) as [[L|E]|G]; try lra. reflexivity.
Qed.

(** C2, refuted as stated.  The samples [x = [0, 1, 2]], [y = [0, 1, 2]] of
    the line [y = 1 * x] are fitted without any error, and the result is a
    triple of finite numbers with [mu = 2] and [sigma = sqrt(1/2)]; the
    constant samples [y = [1, 1, 1]] are fitted without any error either,
    the result having no finite component. *)
Lemma degenerate_input_is_not_rejected :
  [0; 1; 2] = scale 1 [0; 1; 2] /\
  (exists a : R,
     gauss_fit [0; 1; 2] [0; 1; 2] true = Ok (Fin a, Fin 2, Fin (sqrt (1 / 2))))
  /\ Forall (eq 1) [1; 1; 1]
  /\ exists amp mu sigma,
       gauss_fit [0; 1; 2] [1; 1; 1] true = Ok (amp, mu, sigma) /\
       ~ is_finite amp /\ ~ is_finite mu /\ ~ is_finite sigma.
Proof.
  split; [|split; [|split]].
  - unfold scale. simpl. repeat f_equal; ring.
  - eexists. exact gauss_fit_line.
  - repeat constructor.
  - exists NaN, NaN, NaN. split; [exact gauss_fit_constant|]. simpl. tauto.
Qed.

(** C2, amended.  For samples with constant [y] the target [y - y[0]] is
    zero and the solve yields [A = B = 0]; whenever [gauss_fit] returns for
    such samples, none of the amplitude, [mu] and [sigma] it returns is a
    finite number.  (For colinear samples [y = k * x] nothing of the kind
    holds, see [degenerate_input_is_not_rejected].) *)
Theorem constant_y_gives_no_finite_fit (x y : list R) (s : bool) (c : R)
    (x' y' : list R) (amp mu sigma : float64) :
  Forall (eq c) y ->
  preprocess x y s = Ok (x', y') ->
  gauss_fit x y s = Ok (amp, mu, sigma) ->
  Forall (eq 0) (target y') /\
  lstsq (design x' y') (target y') = (0, 0) /\
  ~ is_finite amp /\ ~ is_finite mu /\ ~ is_finite sigma.
Proof.
  intros Hc Hpre Hfit.
  destruct (preprocess_ok _ _ _ _ _ Hpre) as [Hlen HN].
  rewrite (gauss_fit_ok _ _ _ _ _ Hpre) in Hfit.
  assert (Hc' : Forall (eq c) y')
    by exact (preprocess_keeps_values _ _ _ _ _ _ Hpre Hc).
  pose proof (target_constant _ _ Hc') as Hzero.
  pose proof (lstsq_zero_target (design x' y') _ Hzero) as E.
  split; [exact Hzero|]. split; [exact E|].
  rewrite (fit_core_not_finite _ _ _ _ E) in Hfit
    by (try apply length_nonempty; lra || lia).
  rewrite recover_mu_zero in Hfit. injection Hfit as <- <- <-.
  simpl. tauto.
Qed.

Lemma constant_y_witness :
  Forall (eq 0) (target [1; 1; 1]) /\
  lstsq (design [0; 1; 2] [1; 1; 1]) (target [1; 1; 1]) = (0, 0) /\
  ~ is_finite NaN /\ ~ is_finite NaN /\ ~ is_finite NaN.
Proof.
  apply (constant_y_gives_no_finite_fit [0; 1; 2] [1; 1; 1] true 1
           [0; 1; 2] [1; 1; 1] NaN NaN NaN).
  - repeat constructor.
  - reflexivity.
  - exact gauss_fit_constant.
Defined.

(** ** C10: scaling the samples *)

Section Scaling.

Variable c : R.

Lemma tl_map {A B : Type} (f : A -> B) l : tl (map f l) = map f (tl l).
Proof. destruct l; reflexivity. Qed.

Lemma removelast_map {A B : Type} (f : A -> B) l :
  removelast (map f l) = map f (removelast l).
Proof.
  induction l as [|a [|b l] IH]; simpl in *; auto. now rewrite IH.
Qed.

Lemma map2_mult_scale_r x y :
  map2 Rmult x (scale c y) = scale c (map2 Rmult x y).
Proof.
  revert y; induction x as [|a x IH]; intros [|b y]; simpl; auto.
  rewrite IH. f_equal. ring.
Qed.

Lemma map2_mult_scale_l u d :
  map2 Rmult (scale c u) d = scale c (map2 Rmult u d).
Proof.
  revert d; induction u as [|a u IH]; intros [|b d]; simpl; auto.
  rewrite IH. f_equal. ring.
Qed.

Lemma map2_plus_scale u v :
  map2 Rplus (scale c u) (scale c v) = scale c (map2 Rplus u v).
Proof.
  revert v; induction u as [|a u IH]; intros [|b v]; simpl; auto.
  rewrite IH. f_equal. ring.
Qed.

Lemma cumsum_from_scale acc v :
  cumsum_from (c * acc) (scale c v) = scale c (cumsum_from acc v).
Proof.
  revert acc; induction v as [|a v IH]; intros acc; simpl; auto.
  replace (c * acc + c * a) with (c * (acc + a)) by ring.
  now rewrite IH.
Qed.

Lemma cumsum_scale v : cumsum (scale c v) = scale c (cumsum v).
Proof.
  destruct v as [|a v]; simpl; auto. now rewrite cumsum_from_scale.
Qed.

Lemma cumtrapz_scale z d : cumtrapz (scale c z) d = scale c (cumtrapz z d).
Proof.
  unfold cumtrapz, scale at 1 2.
  rewrite tl_map, removelast_map. fold (scale c (tl z)).
  fold (scale c (removelast z)).
  now rewrite map2_plus_scale, map2_mult_scale_l, cumsum_scale.
Qed.

Lemma combine_scale u v :
  combine (scale c u) (scale c v) = scale_rows c (combine u v).
Proof.
  revert v; induction u as [|a u IH]; intros [|b v]; simpl; auto.
  now rewrite IH.
Qed.

Lemma design_scale x y : design x (scale c y) = scale_rows c (design x y).
Proof.
  unfold design.
  rewrite map2_mult_scale_r, !cumtrapz_scale, combine_scale. simpl.
  f_equal. f_equal; ring.
Qed.

Lemma target_scale y : target (scale c y) = scale c (target y).
Proof.
  unfold target, scale. rewrite !map_map. apply map_ext. intros yi.
  destruct y; simpl; ring.
Qed.

Lemma column0_scale a : column0 (scale_rows c a) = scale c (column0 a).
Proof. unfold column0, scale_rows, scale. now rewrite !map_map. Qed.

Lemma column1_scale a : column1 (scale_rows c a) = scale c (column1 a).
Proof. unfold column1, scale_rows, scale. now rewrite !map_map. Qed.

Lemma dot_scale u v : dot (scale c u) (scale c v) = c * c * dot u v.
Proof.
  revert v; induction u as [|a u IH]; intros [|b v]; simpl; try ring.
  rewrite IH. ring.
Qed.

Lemma dot_scale_l u v : dot (scale c u) v = c * dot u v.
Proof.
  revert v; induction u as [|a u IH]; intros [|b v]; simpl; try ring.
  rewrite IH. ring.
Qed.

Hypothesis c_nonzero : c <> 0.

(** The solve does not see a common factor of the matrix and the
    target. *)
Lemma lstsq_scale a b : lstsq (scale_rows c a) (scale c b) = lstsq a b.
Proof.
  unfold lstsq. rewrite column0_scale, column1_scale, !dot_scale.
  set (s11 := dot (column0 a) (column0 a)).
  set (s12 := dot (column0 a) (column1 a)).
  set (s22 := dot (column1 a) (column1 a)).
  set (t1 := dot (column0 a) b).
  set (t2 := dot (column1 a) b).
  assert (Hc2 : c * c <> 0) by (apply Rmult_integral_contrapositive; auto).
  replace (c * c * s11 * (c * c * s22) - c * c * s12 * (c * c * s12))
    with (c * c * (c * c) * (s11 * s22 - s12 * s12)) by ring.
  replace (c * c * s11 + c * c * s22) with (c * c * (s11 + s22)) by ring.
  destruct (Req_dec_T (s11 * s22 - s12 * s12) 0) as [Hd|Hd].
  - rewrite Hd, Rmult_0_r. destruct (Req_dec_T 0 0); [|congruence].
    destruct (Req_dec_T (s11 + s22) 0) as [Ht|Ht].
    + rewrite Ht, Rmult_0_r. destruct (Req_dec_T 0 0); [|congruence].
      reflexivity.
    + destruct (Req_dec_T (c * c * (s11 + s22)) 0) as [Hz|Hz].
      * apply Rmult_integral in Hz. tauto.
      * f_equal; field; auto.
  - destruct (Req_dec_T _ 0) as [Hz|Hz].
    + apply Rmult_integral in Hz. destruct Hz as [Hz|Hz]; [|tauto].
      apply Rmult_integral in Hz. tauto.
    + f_equal; field; auto.
Qed.

Lemma sort_by_x_scale l :
  sort_by_x (map (fun p : R * R => (fst p, c * snd p)) l)
  = map (fun p : R * R => (fst p, c * snd p)) (sort_by_x l).
Proof.
  induction l as [|p l IH]; simpl; auto. rewrite IH.
  generalize (sort_by_x l). intros m.
  induction m as [|q m IHm]; simpl; auto.
  destruct (Rle_dec (fst p) (fst q)); simpl; auto. now rewrite IHm.
Qed.

Lemma combine_scale_r x y :
  combine x (scale c y) = map (fun p : R * R => (fst p, c * snd p)) (combine x y).
Proof.
  revert y; induction x as [|a x IH]; intros [|b y]; simpl; auto.
  now rewrite IH.
Qed.

Lemma preprocess_scale x y s x' y' :
  preprocess x y s = Ok (x', y') ->
  preprocess x (scale c y) s = Ok (x', scale c y').
Proof.
  unfold preprocess, scale at 1. rewrite length_map.
  destruct (negb _ || _); try discriminate.
  destruct s; intros H; inversion H; subst; auto.
  rewrite combine_scale_r, sort_by_x_scale. unfold scale.
  rewrite !map_map. reflexivity.
Qed.

Lemma fit_core_scale x y :
  x <> [] -> y <> [] ->
  fit_core x (scale c y)
  = (fmul (Fin c) (fst (fst (fit_core x y))),
     snd (fst (fit_core x y)), snd (fit_core x y)).
Proof.
  intros Hx Hy.
  destruct (lstsq (design x y) (target y)) as [A B] eqn:E.
  assert (E' : lstsq (design x (scale c y)) (target (scale c y)) = (A, B)).
  { now rewrite design_scale, target_scale, lstsq_scale. }
  destruct (Rlt_dec B 0) as [HB|HB].
  - rewrite (fit_core_finite _ _ _ _ E HB Hx).
    rewrite (fit_core_finite _ _ _ _ E' HB Hx). simpl.
    rewrite dot_scale_l. do 3 f_equal. field.
    pose proof (dot_bell_pos (- A / B) (sqrt (- 1 / B)) x Hx). lra.
  - rewrite (fit_core_not_finite _ _ _ _ E) by (auto; lra).
    rewrite (fit_core_not_finite _ _ _ _ E'); auto; try lra.
    destruct y; [congruence | discriminate].
Qed.

End Scaling.

(** C10.  If [gauss_fit] returns [(a, mu, sigma)] for the samples [(x, y)]
    and [c] is not zero, then for the samples [(x, c * y)] it returns
    [(c * a, mu, sigma)]: the factor goes into the amplitude only. *)
Theorem scaling_y_scales_amplitude_only (x y : list R) (s : bool) (c : R)
    (amp mu sigma : float64) :
  c <> 0 ->
  gauss_fit x y s = Ok (amp, mu, sigma) ->
  gauss_fit x (scale c y) s = Ok (fmul (Fin c) amp, mu, sigma).
Proof.
  intros Hc Hfit.
  destruct (gauss_fit_inv _ _ _ _ Hfit) as [x' [y' [Hpre Hcore]]].
  destruct (preprocess_ok _ _ _ _ _ Hpre) as [Hlen HN].
  rewrite (gauss_fit_ok _ _ _ _ _ (preprocess_scale c _ _ _ _ _ Hpre)).
  rewrite (fit_core_scale c Hc) by (apply length_nonempty; lia).
  rewrite <- Hcore. reflexivity.
Qed.

Lemma scaling_y_witness :
  exists a : R,
    gauss_fit [0; 1; 2] (scale 3 [0; 1; 2]) true
    = Ok (fmul (Fin 3) (Fin a), Fin 2, Fin (sqrt (1 / 2))).
Proof.
  eexists.
  apply (scaling_y_scales_amplitude_only [0; 1; 2] [0; 1; 2] true 3).
  - lra.
  - exact gauss_fit_line.
Defined.

(** ** C8: ascending and descending order *)

Lemma cum_spec_reversed (z d z' d' : nat -> R) n :
  (forall k, (k <= n)%nat -> z' k = z (n - k)%nat) ->
  (forall k, (k < n)%nat -> d' k = - d (n - 1 - k)%nat) ->
  forall i, (i <= n)%nat ->
    cum_spec z' d' i = cum_spec z d (n - i) - cum_spec z d n.
Proof.
  intros Hz Hd. induction i as [|i IH]; intros Hi.
  - rewrite Nat.sub_0_r. simpl. ring.
  - simpl. rewrite IH, (Hz (S i)), (Hz i), (Hd i) by lia.
    replace (n - i)%nat with (S (n - S i)) by lia. simpl.
    replace (n - 1 - i)%nat with (n - S i)%nat by lia. ring.
Qed.

Lemma nth_rev_lt (l : list R) k :
  (k < length l)%nat -> nth k (rev l) 0 = nth (length l - 1 - k) l 0.
Proof.
  intros Hk. rewrite rev_nth by assumption. f_equal. lia.
Qed.

Section Reversal.

Variables x y : list R.
Hypothesis same_length : length x = length y.
Hypothesis two_samples : (2 <= length x)%nat.

Lemma d_spec_rev k : (k < length x - 1)%nat ->
  d_spec (rev x) k = - d_spec x (length x - 1 - 1 - k).
Proof.
  intros Hk. unfold d_spec. rewrite !nth_rev_lt by lia.
  replace (length x - 1 - k)%nat with (S (length x - 1 - 1 - k)) by lia.
  replace (length x - 1 - S k)%nat with (length x - 1 - 1 - k)%nat by lia.
  ring.
Qed.

Lemma S_y_spec_rev i :
  (i <= length x - 1)%nat ->
  S_y_spec (rev x) (rev y) i
  = S_y_spec x y (length x - 1 - i) - S_y_spec x y (length x - 1).
Proof.
  intros Hi. unfold S_y_spec. apply cum_spec_reversed; auto.
  - intros k Hk. rewrite nth_rev_lt by lia.
    f_equal. lia.
  - apply d_spec_rev.
Qed.

Lemma S_xy_spec_rev i :
  (i <= length x - 1)%nat ->
  S_xy_spec (rev x) (rev y) i
  = S_xy_spec x y (length x - 1 - i) - S_xy_spec x y (length x - 1).
Proof.
  intros Hi. unfold S_xy_spec. apply cum_spec_reversed; auto.
  - intros k Hk. unfold xy_spec. rewrite !nth_rev_lt by lia.
    f_equal; f_equal; lia.
  - apply d_spec_rev.
Qed.

End Reversal.

(** *** Rank of the design matrix *)

Lemma dot_self_zero_all w : dot w w = 0 -> Forall (eq 0) w.
Proof.
  induction w as [|c w IH]; simpl; intros H; constructor.
  - pose proof (dot_self_nonneg w). nra.
  - apply IH. pose proof (dot_self_nonneg w). nra.
Qed.

Lemma dot_zero_l w b : Forall (eq 0) w -> dot w b = 0.
Proof. intros H. rewrite dot_comm. now apply dot_zero_r. Qed.

(** A vanishing Gram determinant means linearly dependent columns. *)
Lemma gram_det_zero_dependent a :
  gram_det a = 0 ->
  exists q1 q2, (q1 <> 0 \/ q2 <> 0) /\ Forall (eq 0) (lin_comb q1 q2 a).
Proof.
  unfold gram_det.
  set (s11 := dot (column0 a) (column0 a)).
  set (s12 := dot (column0 a) (column1 a)).
  set (s22 := dot (column1 a) (column1 a)).
  intros Hdet.
  destruct (Req_dec_T s11 0) as [Z|NZ].
  - exists 1, 0. split; [left; lra|].
    apply dot_self_zero_all. rewrite dot_lin_comb_self.
    fold s11. rewrite Z. ring.
  - exists (- s12), s11. split; [now right|].
    apply dot_self_zero_all. rewrite dot_lin_comb_self. fold s11 s12 s22.
    replace (_ + _ + _) with (s11 * (s11 * s22 - s12 * s12)) by ring.
    rewrite Hdet. ring.
Qed.

Lemma dependent_gram_det_zero a q1 q2 :
  q1 <> 0 \/ q2 <> 0 -> Forall (eq 0) (lin_comb q1 q2 a) -> gram_det a = 0.
Proof.
  intros Hq Hz.
  pose proof (dot_zero_l _ (column0 a) Hz) as E1.
  pose proof (dot_zero_l _ (column1 a) Hz) as E2.
  rewrite dot_lin_comb in E1, E2. unfold gram_det.
  rewrite (dot_comm (column1 a) (column0 a)) in E1.
  set (s11 := dot (column0 a) (column0 a)) in *.
  set (s12 := dot (column0 a) (column1 a)) in *.
  set (s22 := dot (column1 a) (column1 a)) in *.
  assert (D1 : (s11 * s22 - s12 * s12) * q1 = 0).
  { replace (_ * q1)
      with (s22 * (q1 * s11 + q2 * s12) - s12 * (q1 * s12 + q2 * s22))
      by ring.
    rewrite E1, E2. ring. }
  assert (D2 : (s11 * s22 - s12 * s12) * q2 = 0).
  { replace (_ * q2)
      with (s11 * (q1 * s12 + q2 * s22) - s12 * (q1 * s11 + q2 * s12))
      by ring.
    rewrite E1, E2. ring. }
  destruct Hq as [Hq|Hq].
  - apply Rmult_integral in D1. tauto.
  - apply Rmult_integral in D2. tauto.
Qed.

(** A system that [(A, B)] solves exactly, with independent columns, has
    [(A, B)] for its least-squares solution. *)
Lemma lstsq_exact a b A B :
  b = lin_comb A B a -> gram_det a <> 0 -> lstsq a b = (A, B).
Proof.
  intros -> Hdet. unfold lstsq. unfold gram_det in Hdet.
  rewrite !(dot_comm _ (lin_comb A B a)), !dot_lin_comb.
  rewrite (dot_comm (column1 a) (column0 a)).
  destruct (Req_dec_T _ 0) as [Hd|Hd]; [contradiction|].
  f_equal; field; assumption.
Qed.

Lemma lin_comb_nth a q1 q2 i :
  (i < length a)%nat ->
  nth i (lin_comb q1 q2 a) 0
  = q1 * nth i (column0 a) 0 + q2 * nth i (column1 a) 0.
Proof.
  intros Hi. unfold lin_comb, column0, column1.
  rewrite (nth_map_lt _ _ _ (0, 0)) by assumption.
  now rewrite !(nth_map_lt _ _ _ (0, 0) 0) by assumption.
Qed.

Lemma Forall_zero_nth (l : list R) :
  Forall (eq 0) l <-> forall i, (i < length l)%nat -> nth i l 0 = 0.
Proof.
  split.
  - intros H i Hi. rewrite Forall_forall in H. symmetry.
    apply H, nth_In, Hi.
  - intros H. apply Forall_forall. intros v Hv.
    destruct (In_nth _ _ 0 Hv) as [i [Hi <-]]. symmetry. now apply H.
Qed.

Lemma length_lin_comb q1 q2 a : length (lin_comb q1 q2 a) = length a.
Proof. apply length_map. Qed.

(** *** Samples that satisfy the linear problem exactly *)

Lemma dot_app u1 u2 v1 v2 :
  length u1 = length v1 ->
  dot (u1 ++ u2) (v1 ++ v2) = dot u1 v1 + dot u2 v2.
Proof.
  revert v1; induction u1 as [|a u1 IH]; intros [|b v1] H; simpl in *;
    try discriminate; try ring.
  rewrite IH by lia. ring.
Qed.

Lemma dot_rev u v : length u = length v -> dot (rev u) (rev v) = dot u v.
Proof.
  revert v; induction u as [|a u IH]; intros [|b v] H; simpl in *;
    try discriminate; auto.
  rewrite dot_app by (rewrite !length_rev; lia).
  rewrite IH by lia. simpl. ring.
Qed.

Lemma fit_core_rev x y A B :
  length x = length y -> (1 <= length x)%nat ->
  lstsq (design x y) (target y) = (A, B) ->
  lstsq (design (rev x) (rev y)) (target (rev y)) = (A, B) ->
  fit_core (rev x) (rev y) = fit_core x y.
Proof.
  intros Hlen HN E E'.
  assert (Hx : x <> []) by (apply length_nonempty; lia).
  assert (Hy : y <> []) by (apply length_nonempty; lia).
  assert (Hrx : rev x <> []) by (apply length_nonempty; rewrite length_rev; lia).
  assert (Hry : rev y <> []) by (apply length_nonempty; rewrite length_rev; lia).
  destruct (Rlt_dec B 0) as [HB|HB].
  - rewrite (fit_core_finite _ _ _ _ E HB Hx).
    rewrite (fit_core_finite _ _ _ _ E' HB Hrx). simpl.
    rewrite !map_rev, !dot_rev by (rewrite ?length_map; auto).
    reflexivity.
  - rewrite (fit_core_not_finite _ _ _ _ E) by (auto; lra).
    rewrite (fit_core_not_finite _ _ _ _ E') by (auto; lra).
    reflexivity.
Qed.

Section ExactSamples.

Variables x y : list R.
Variables A B : R.
Hypothesis same_length : length x = length y.
Hypothesis two_samples : (2 <= length x)%nat.
Hypothesis exact :
  forall i, (i < length x)%nat ->
    S_y_spec x y i * A + S_xy_spec x y i * B = nth i y 0 - nth 0 y 0.

Lemma target_exact : target y = lin_comb A B (design x y).
Proof.
  apply (nth_ext _ _ 0 0).
  - rewrite length_target, length_lin_comb, length_design; lia.
  - intros i Hi. rewrite length_target in Hi.
    rewrite nth_target, lin_comb_nth by (rewrite ?length_design; lia).
    rewrite nth_column0_design, nth_column1_design by lia.
    rewrite <- exact by lia. ring.
Qed.

Lemma target_rev_exact :
  target (rev y) = lin_comb A B (design (rev x) (rev y)).
Proof.
  assert (Hr : length (rev x) = length (rev y)) by now rewrite !length_rev.
  apply (nth_ext _ _ 0 0).
  - rewrite length_target, length_lin_comb, length_design;
      rewrite ?length_rev; lia.
  - intros i Hi. rewrite length_target, length_rev in Hi.
    rewrite nth_target, lin_comb_nth
      by (rewrite ?length_design; rewrite ?length_rev; lia).
    rewrite nth_column0_design, nth_column1_design
      by (rewrite ?length_rev; lia).
    rewrite (S_y_spec_rev x y), (S_xy_spec_rev x y) by lia.
    rewrite !nth_rev_lt by lia.
    pose proof (exact (length x - 1 - i)%nat ltac:(lia)) as Ei.
    pose proof (exact (length x - 1)%nat ltac:(lia)) as En.
    rewrite <- same_length, Nat.sub_0_r. lra.
Qed.

Hypothesis independent : gram_det (design x y) <> 0.

Lemma gram_det_design_rev : gram_det (design (rev x) (rev y)) <> 0.
Proof.
  intros Hz. apply independent.
  destruct (gram_det_zero_dependent _ Hz) as [q1 [q2 [Hq Hall]]].
  apply (dependent_gram_det_zero _ q1 q2 Hq).
  rewrite Forall_zero_nth in Hall. apply Forall_zero_nth.
  assert (Hr : length (rev x) = length (rev y)) by now rewrite !length_rev.
  rewrite length_lin_comb, length_design in Hall
    by (rewrite ?length_rev; lia).
  rewrite length_rev in Hall.
  assert (Hrow : forall i, (i <= length x - 1)%nat ->
            q1 * (S_y_spec x y (length x - 1 - i)
                  - S_y_spec x y (length x - 1))
            + q2 * (S_xy_spec x y (length x - 1 - i)
                    - S_xy_spec x y (length x - 1)) = 0).
  { intros i Hi. rewrite <- (Hall i) by lia.
    rewrite lin_comb_nth
      by (rewrite length_design; rewrite ?length_rev; lia).
    rewrite nth_column0_design, nth_column1_design
      by (rewrite ?length_rev; lia).
    now rewrite (S_y_spec_rev x y), (S_xy_spec_rev x y) by lia. }
  intros j Hj. rewrite length_lin_comb, length_design in Hj by lia.
  rewrite lin_comb_nth by (rewrite length_design; lia).
  rewrite nth_column0_design, nth_column1_design by lia.
  pose proof (Hrow (length x - 1 - j)%nat ltac:(lia)) as Hj'.
  pose proof (Hrow (length x - 1)%nat ltac:(lia)) as Hn.
  replace (length x - 1 - (length x - 1 - j))%nat with j in Hj' by lia.
  rewrite Nat.sub_diag in Hn.
  change (S_y_spec x y 0) with 0 in Hn.
  change (S_xy_spec x y 0) with 0 in Hn. lra.
Qed.

Lemma fit_core_rev_exact : fit_core (rev x) (rev y) = fit_core x y.
Proof.
  apply (fit_core_rev x y A B); auto; try lia.
  - apply lstsq_exact; auto using target_exact.
  - apply lstsq_exact; auto using target_rev_exact, gram_det_design_rev.
Qed.

End ExactSamples.

(** C8, refuted as stated.  The samples [x = [0, 1, 2, 3]],
    [y = [0, 2, 1, 0]] have strictly increasing [x]; fitted in this order
    they give [mu = 29/22] and [sigma = sqrt(9/44)], fitted in descending
    order of [x] they give [mu = 25/19] and [sigma = sqrt(9/38)].  The two
    means differ by more than [1/500]. *)
Lemma descending_order_changes_fit :
  (exists a : R,
     gauss_fit [0; 1; 2; 3] [0; 2; 1; 0] true
     = Ok (Fin a, Fin (29 / 22), Fin (sqrt (9 / 44)))) /\
  (exists a : R,
     gauss_fit (rev [0; 1; 2; 3]) (rev [0; 2; 1; 0]) true
     = Ok (Fin a, Fin (25 / 19), Fin (sqrt (9 / 38)))) /\
  25 / 19 + 1 / 500 < 29 / 22 /\
  gauss_fit [0; 1; 2; 3] [0; 2; 1; 0] true
  <> gauss_fit (rev [0; 1; 2; 3]) (rev [0; 2; 1; 0]) true.
Proof.
  assert (Hasc : exists a : R,
     gauss_fit [0; 1; 2; 3] [0; 2; 1; 0] true
     = Ok (Fin a, Fin (29 / 22), Fin (sqrt (9 / 44)))).
  { rewrite (gauss_fit_ok _ _ _ [0; 1; 2; 3] [0; 2; 1; 0]) by reflexivity.
    rewrite (fit_core_finite _ _ _ _ lstsq_bump_ascending);
      try discriminate; try lra.
    replace (- (58 / 9) / (- 44 / 9)) with (29 / 22) by field.
    replace (- 1 / (- 44 / 9)) with (9 / 44) by field.
    eexists. reflexivity. }
  assert (Hdesc : exists a : R,
     gauss_fit (rev [0; 1; 2; 3]) (rev [0; 2; 1; 0]) true
     = Ok (Fin a, Fin (25 / 19), Fin (sqrt (9 / 38)))).
  { simpl rev.
    rewrite (gauss_fit_ok _ _ _ [3; 2; 1; 0] [0; 1; 2; 0]) by reflexivity.
    rewrite (fit_core_finite _ _ _ _ lstsq_bump_descending);
      try discriminate; try lra.
    replace (- (50 / 9) / (- 38 / 9)) with (25 / 19) by field.
    replace (- 1 / (- 38 / 9)) with (9 / 38) by field.
    eexists. reflexivity. }
  split; [exact Hasc|]. split; [exact Hdesc|]. split; [lra|].
  destruct Hasc as [a1 ->]. destruct Hdesc as [a2 ->].
  intros H. injection H as _ Hmu _. lra.
Qed.

(** Three samples with a non-singular system satisfy the linear problem
    exactly: two equations, two unknowns. *)
Lemma three_samples_exact (x0 x1 x2 y0 y1 y2 : R) :
  gram_det (design [x0; x1; x2] [y0; y1; y2]) <> 0 ->
  exists A B, forall i, (i < 3)%nat ->
    S_y_spec [x0; x1; x2] [y0; y1; y2] i * A
    + S_xy_spec [x0; x1; x2] [y0; y1; y2] i * B
    = nth i [y0; y1; y2] 0 - nth 0 [y0; y1; y2] 0.
Proof.
  unfold gram_det, design, half_steps, cumtrapz, column0, column1.
  cbn [map map2 diff cumsum cumsum_from dot tl removelast combine fst snd].
  set (u1 := (y1 + y0) * (1 / 2 * (x1 - x0))).
  set (u2 := u1 + (y2 + y1) * (1 / 2 * (x2 - x1))).
  set (v1 := (x1 * y1 + x0 * y0) * (1 / 2 * (x1 - x0))).
  set (v2 := v1 + (x2 * y2 + x1 * y1) * (1 / 2 * (x2 - x1))).
  intros Hdet.
  assert (HD : u1 * v2 - u2 * v1 <> 0).
  { intros Z. apply Hdet.
    replace (_ - _)
      with ((u1 * v2 - u2 * v1) * (u1 * v2 - u2 * v1)) by ring.
    rewrite Z. ring. }
  exists (((y1 - y0) * v2 - (y2 - y0) * v1) / (u1 * v2 - u2 * v1)),
         ((u1 * (y2 - y0) - u2 * (y1 - y0)) / (u1 * v2 - u2 * v1)).
  intros [|[|[|i]]] Hi; try lia;
    unfold S_y_spec, S_xy_spec, xy_spec, d_spec;
    cbn [cum_spec nth]; fold u1 v1; try fold u2; try fold v2.
  - field; assumption.
  - replace (0 + u1) with u1 by ring. replace (0 + v1) with v1 by ring.
    field; assumption.
  - replace (0 + u1 + (y2 + y1) * (1 / 2 * (x2 - x1))) with u2
      by (unfold u2; ring).
    replace (0 + v1 + (x2 * y2 + x1 * y1) * (1 / 2 * (x2 - x1))) with v2
      by (unfold v2; ring).
    field; assumption.
Qed.

(** X3.  Three samples whose two design columns are linearly independent
    are fitted to the same result in either order of the samples. *)
Lemma three_samples_either_order (x0 x1 x2 y0 y1 y2 : R) :
  gram_det (design [x0; x1; x2] [y0; y1; y2]) <> 0 ->
  gauss_fit [x2; x1; x0] [y2; y1; y0] true
  = gauss_fit [x0; x1; x2] [y0; y1; y2] true.
Proof.
  intros Hdet. destruct (three_samples_exact _ _ _ _ _ _ Hdet) as [A [B Hex]].
  rewrite (gauss_fit_ok _ _ true [x2; x1; x0] [y2; y1; y0]) by reflexivity.
  rewrite (gauss_fit_ok _ _ true [x0; x1; x2] [y0; y1; y2]) by reflexivity.
  f_equal.
  now apply (fit_core_rev_exact [x0; x1; x2] [y0; y1; y2] A B); simpl; auto.
Qed.

(** C8, amended.  If the samples satisfy the linear problem of step 4
    exactly for some [(A, B)] (as any three samples with a non-singular
    system do, see [three_samples_exact]) and the two design columns are
    linearly independent, then fitting them in reversed order gives the
    identical result. *)
Theorem reversed_order_same_fit_when_exact (x y : list R) (A B : R) :
  length x = length y ->
  (2 <= length x)%nat ->
  (forall i, (i < length x)%nat ->
     S_y_spec x y i * A + S_xy_spec x y i * B = nth i y 0 - nth 0 y 0) ->
  gram_det (design x y) <> 0 ->
  gauss_fit (rev x) (rev y) true = gauss_fit x y true.
Proof.
  intros Hlen HN Hex Hdet.
  rewrite (gauss_fit_ok (rev x) (rev y) true (rev x) (rev y))
    by (apply preprocess_sorted; rewrite !length_rev; auto).
  rewrite (gauss_fit_ok x y true x y) by (apply preprocess_sorted; auto).
  f_equal. now apply (fit_core_rev_exact x y A B).
Qed.

Lemma reversed_order_witness :
  gauss_fit (rev [0; 1; 2]) (rev [0; 1; 2]) true
  = gauss_fit [0; 1; 2] [0; 1; 2] true.
Proof.
  apply (reversed_order_same_fit_when_exact [0; 1; 2] [0; 1; 2] 4 (-2)).
  - reflexivity.
  - simpl; lia.
  - intros [|[|[|i]]] Hi; simpl in Hi; try lia;
      unfold S_y_spec, S_xy_spec, xy_spec, d_spec; simpl; lra.
  - unfold gram_det, design, half_steps, cumtrapz, column0, column1. simpl.
    lra.
Defined.

(** ** The store *)

Lemma upd_eq l a c : upd l a c l = a.
Proof. unfold upd. now rewrite Nat.eqb_refl. Qed.

Lemma upd_ne l a c k : k <> l -> upd l a c k = c k.
Proof.
  intros H. unfold upd. destruct (Nat.eqb_spec k l); [contradiction|].
  reflexivity.
Qed.

(** The three slice assignments of lines 110 to 112 leave nothing of the
    uninitialised array. *)
Lemma slices_overwrite_everything (rows : list (R * R)) (c0 c1 : list R) :
  length rows = S (length c0) -> length c1 = length c0 ->
  set_col1_from1 c1 (set_col0_from1 c0 (set_row0 rows))
  = (0, 0) :: combine c0 c1.
Proof.
  destruct rows as [|r t]; simpl; [discriminate|].
  intros Ht Hc. f_equal. injection Ht as Ht.
  revert c0 c1 Ht Hc. induction t as [|q t IH]; intros [|a c0] [|b c1];
    simpl; intros; try discriminate; auto.
  f_equal. apply IH; lia.
Qed.

Section ProgramFacts.

Variable garbage : nat -> R * R.
Variable scratch_a : list (R * R) -> list R -> list (R * R).
Variable scratch_b : list (R * R) -> list R -> list R.

Lemma fit_core_st_run (h : store) (lx ly : loc) (x y : list R) :
  cell h lx = Arr1 x -> cell h ly = Arr1 y ->
  (lx < next h)%nat -> (ly < next h)%nat ->
  length x = length y -> (1 <= length x)%nat ->
  exists h',
    fit_core_st garbage scratch_a scratch_b lx ly h
    = (Ok (5 + next h)%nat, h') /\
    cell h' (5 + next h)%nat
    = ArrF [fst (fst (fit_core x y)); snd (fst (fit_core x y));
            snd (fit_core x y)] /\
    next h' = (6 + next h)%nat /\
    forall l, (l < next h)%nat -> cell h' l = cell h l.
Proof.
  intros Hx Hy Lx Ly Hlen HN.
  unfold fit_core_st, lstsq_st, bind, get, new, put, ret. simpl.
  rewrite Hx, Hy.
  repeat (rewrite ?upd_eq; rewrite ?upd_ne by lia; cbn [as1 as2 asF]).
  rewrite slices_overwrite_everything.
  2, 3: rewrite ?length_map, ?length_seq, ?length_map2, !length_cumtrapz;
        rewrite ?length_half_steps, ?length_map2; lia.
  change ((0, 0) :: combine (cumtrapz y (half_steps x))
                            (cumtrapz (map2 Rmult x y) (half_steps x)))
    with (design x y).
  eexists. split; [reflexivity|]. cbn [cell next].
  split; [|split; [reflexivity|]].
  - rewrite upd_eq. unfold fit_core.
    destruct (lstsq (design x y) (target y)) as [A B]. reflexivity.
  - intros l Hl. now rewrite !upd_ne by lia.
Qed.

End ProgramFacts.

Section Purity.

Variable garbage : nat -> R * R.
Variable scratch_a : list (R * R) -> list R -> list (R * R).
Variable scratch_b : list (R * R) -> list R -> list R.

(** One call of [gauss_fit] on the arrays at [lx] and [ly]: what it
    returns and what it leaves in the store. *)
Lemma gauss_fit_st_run (h : store) (lx ly : loc) (s : bool) (x y : list R) :
  cell h lx = Arr1 x -> cell h ly = Arr1 y ->
  (lx < next h)%nat -> (ly < next h)%nat ->
  exists r h',
    gauss_fit_st garbage scratch_a scratch_b lx ly s h = (r, h') /\
    (forall l, (l < next h)%nat -> cell h' l = cell h l) /\
    match gauss_fit x y s with
    | Raise e => r = Raise e
    | Ok (amp, mu, sigma) =>
        exists lo, r = Ok lo /\ (next h <= lo)%nat /\
                   cell h' lo = ArrF [amp; mu; sigma]
    end.
Proof.
  intros Hx Hy Lx Ly.
  unfold gauss_fit_st, preprocess_st, gauss_fit.
  unfold bind at 1 2 3. unfold get. rewrite Hx, Hy. cbn [as1].
  destruct (preprocess x y s) as [[x' y']|e] eqn:Hpre.
  - destruct (preprocess_ok _ _ _ _ _ Hpre) as [Hlen HN].
    destruct s.
    + assert (x' = x /\ y' = y) as [-> ->].
      { unfold preprocess in Hpre. destruct (negb _ || _); [discriminate|].
        now inversion Hpre. }
      unfold ret. cbn [fst snd].
      destruct (fit_core_st_run garbage scratch_a scratch_b h lx ly x y)
        as [h' [Hrun [Hout [Hnext Hframe]]]]; auto; try lia.
      exists (Ok (5 + next h)%nat), h'. split; [exact Hrun|].
      split; [exact Hframe|].
      destruct (fit_core x y) as [[amp mu] sigma].
      exists (5 + next h)%nat. repeat split; auto. lia.
    + unfold bind, new, ret. cbn [fst snd cell next].
      set (h2 := {| cell := upd (S (next h)) (Arr1 y')
                              (upd (next h) (Arr1 x') (cell h));
                    next := S (S (next h)) |}).
      assert (C1 : cell h2 (next h) = Arr1 x').
      { unfold h2. cbn [cell]. rewrite upd_ne by lia. apply upd_eq. }
      assert (C2 : cell h2 (S (next h)) = Arr1 y').
      { unfold h2. cbn [cell]. apply upd_eq. }
      assert (N2 : next h2 = S (S (next h))) by reflexivity.
      destruct (fit_core_st_run garbage scratch_a scratch_b h2
                  (next h) (S (next h)) x' y' C1 C2)
        as [h' [Hrun [Hout [Hnext Hframe]]]]; try lia.
      exists (Ok (5 + next h2)%nat), h'. split; [exact Hrun|]. split.
      * intros l Hl. rewrite Hframe by lia.
        unfold h2. cbn [cell]. now rewrite !upd_ne by lia.
      * destruct (fit_core x' y') as [[amp mu] sigma].
        exists (5 + next h2)%nat. repeat split; auto. lia.
  - exists (Raise e), h. unfold raise. auto.
Qed.

End Purity.

(** ** C9: no side effects *)

(** C9.  A call of [gauss_fit] changes no array that existed before the
    call, the caller's [x] and [y] included; what it returns is a new array
    holding [gauss_fit x y sorted], a function of the contents of [x] and
    [y] and of the flag alone: two calls on arrays with the same contents
    return the same values (or raise the same error), whatever else the
    store holds, whatever [numpy.empty] found in memory and whatever LAPACK
    left in its work arrays. *)
Theorem gauss_fit_is_pure
    (garbage1 garbage2 : nat -> R * R)
    (scratch_a1 scratch_a2 : list (R * R) -> list R -> list (R * R))
    (scratch_b1 scratch_b2 : list (R * R) -> list R -> list R)
    (h1 h2 : store) (lx1 ly1 lx2 ly2 : loc) (s : bool) (x y : list R) :
  cell h1 lx1 = Arr1 x -> cell h1 ly1 = Arr1 y ->
  (lx1 < next h1)%nat -> (ly1 < next h1)%nat ->
  cell h2 lx2 = Arr1 x -> cell h2 ly2 = Arr1 y ->
  (lx2 < next h2)%nat -> (ly2 < next h2)%nat ->
  exists r1 h1' r2 h2',
    gauss_fit_st garbage1 scratch_a1 scratch_b1 lx1 ly1 s h1 = (r1, h1') /\
    gauss_fit_st garbage2 scratch_a2 scratch_b2 lx2 ly2 s h2 = (r2, h2') /\
    (forall l, (l < next h1)%nat -> cell h1' l = cell h1 l) /\
    cell h1' lx1 = Arr1 x /\ cell h1' ly1 = Arr1 y /\
    match gauss_fit x y s with
    | Raise e => r1 = Raise e /\ r2 = Raise e
    | Ok (amp, mu, sigma) =>
        exists lo1 lo2,
          r1 = Ok lo1 /\ r2 = Ok lo2 /\
          (next h1 <= lo1)%nat /\
          cell h1' lo1 = ArrF [amp; mu; sigma] /\
          cell h2' lo2 = ArrF [amp; mu; sigma]
    end.
Proof.
  intros Hx1 Hy1 Lx1 Ly1 Hx2 Hy2 Lx2 Ly2.
  destruct (gauss_fit_st_run garbage1 scratch_a1 scratch_b1
              h1 lx1 ly1 s x y Hx1 Hy1 Lx1 Ly1)
    as [r1 [h1' [Hrun1 [Hframe1 Hres1]]]].
  destruct (gauss_fit_st_run garbage2 scratch_a2 scratch_b2
              h2 lx2 ly2 s x y Hx2 Hy2 Lx2 Ly2)
    as [r2 [h2' [Hrun2 [Hframe2 Hres2]]]].
  exists r1, h1', r2, h2'.
  split; [exact Hrun1|]. split; [exact Hrun2|]. split; [exact Hframe1|].
  split; [now rewrite Hframe1|]. split; [now rewrite Hframe1|].
  destruct (gauss_fit x y s) as [[[amp mu] sigma]|e]; [|now split].
  destruct Hres1 as [lo1 [E1 [L1 C1]]]. destruct Hres2 as [lo2 [E2 [L2 C2]]].
  exists lo1, lo2. auto.
Qed.

Lemma gauss_fit_is_pure_witness :
  exists r1 h1' r2 h2',
    gauss_fit_st (fun _ => (0, 0)) (fun a _ => a) (fun _ b => b)
      0%nat 1%nat true example_store = (r1, h1') /\
    gauss_fit_st (fun _ => (1, 1)) (fun _ _ => []) (fun _ _ => [])
      2%nat 0%nat true example_store' = (r2, h2') /\
    (forall l, (l < next example_store)%nat ->
       cell h1' l = cell example_store l) /\
    cell h1' 0%nat = Arr1 [0; 1; 2] /\ cell h1' 1%nat = Arr1 [2; 1; 2] /\
    match gauss_fit [0; 1; 2] [2; 1; 2] true with
    | Raise e => r1 = Raise e /\ r2 = Raise e
    | Ok (amp, mu, sigma) =>
        exists lo1 lo2,
          r1 = Ok lo1 /\ r2 = Ok lo2 /\
          (next example_store <= lo1)%nat /\
          cell h1' lo1 = ArrF [amp; mu; sigma] /\
          cell h2' lo2 = ArrF [amp; mu; sigma]
    end.
Proof.
  apply (gauss_fit_is_pure (fun _ => (0, 0)) (fun _ => (1, 1))
           (fun a _ => a) (fun _ _ => []) (fun _ b => b) (fun _ _ => [])
           example_store example_store' 0%nat 1%nat 2%nat 0%nat true
           [0; 1; 2] [2; 1; 2]);
    try reflexivity; simpl; lia.
Defined.

(** ** C7: the model evaluator *)

Lemma bell_finite_value a mu sigma xi :
  sigma <> 0 ->
  fmul (Fin a) (bell (Fin mu) (Fin sigma) xi)
  = Fin (a * exp (- (1 / 2) * (((xi - mu) / sigma) * ((xi - mu) / sigma)))).
Proof. intros Hs. now rewrite bell_finite. Qed.

(** C7.  [model(x, a, mu, sigma)] always returns: its result is a new
    array as long as [x], whose [i]-th element is
    [a * exp(-0.5 * ((x_i - mu) / sigma)**2)] (a finite number, given by
    the same formula on the reals, when [a], [mu], [sigma] are finite and
    [sigma] is not zero), and the call changes no array that existed
    before.  Arrays are one-dimensional here; the expression is
    element-wise, so the shape of [x] plays no other role. *)
Theorem model_is_pointwise_and_stateless (h : store) (lx : loc)
    (x : list R) (a mu sigma : float64) :
  cell h lx = Arr1 x -> (lx < next h)%nat ->
  exists h',
    model_st lx a mu sigma h = (Ok (next h), h') /\
    cell h' (next h) = ArrF (model x a mu sigma) /\
    (forall l, (l < next h)%nat -> cell h' l = cell h l) /\
    length (model x a mu sigma) = length x /\
    forall i, (i < length x)%nat ->
      nth i (model x a mu sigma) NaN
      = fmul a (fexp (fmul (Fin (- (1 / 2)))
                        (fsqr (fdiv (fsub (Fin (nth i x 0)) mu) sigma)))) /\
      forall a' mu' sigma' : R,
        a = Fin a' -> mu = Fin mu' -> sigma = Fin sigma' -> sigma' <> 0 ->
        nth i (model x a mu sigma) NaN
        = Fin (a' * exp (- (1 / 2) * (((nth i x 0 - mu') / sigma')
                                      * ((nth i x 0 - mu') / sigma')))).
Proof.
  intros Hx Lx. unfold model_st, bind, get, new. rewrite Hx. cbn [as1].
  eexists. split; [reflexivity|]. cbn [cell next].
  split; [apply upd_eq|]. split; [intros l Hl; apply upd_ne; lia|].
  split; [apply length_map|].
  intros i Hi.
  assert (E : nth i (model x a mu sigma) NaN
              = fmul a (bell mu sigma (nth i x 0))).
  { unfold model. now rewrite (nth_map_lt _ _ _ 0) by assumption. }
  split; [exact E|].
  intros a' mu' sigma' -> -> -> Hs. rewrite E.
  now apply bell_finite_value.
Qed.

Lemma model_witness :
  exists h',
    model_st 0%nat (Fin 1) (Fin 0) (Fin 1) example_store
    = (Ok (next example_store), h') /\
    cell h' (next example_store)
    = ArrF (model [0; 1; 2] (Fin 1) (Fin 0) (Fin 1)) /\
    (forall l, (l < next example_store)%nat ->
       cell h' l = cell example_store l) /\
    length (model [0; 1; 2] (Fin 1) (Fin 0) (Fin 1)) = length [0; 1; 2] /\
    forall i, (i < length [0; 1; 2])%nat ->
      nth i (model [0; 1; 2] (Fin 1) (Fin 0) (Fin 1)) NaN
      = fmul (Fin 1)
          (fexp (fmul (Fin (- (1 / 2)))
                   (fsqr (fdiv (fsub (Fin (nth i [0; 1; 2] 0)) (Fin 0))
                            (Fin 1))))) /\
      forall a' mu' sigma' : R,
        Fin 1 = Fin a' -> Fin 0 = Fin mu' -> Fin 1 = Fin sigma' ->
        sigma' <> 0 ->
        nth i (model [0; 1; 2] (Fin 1) (Fin 0) (Fin 1)) NaN
        = Fin (a' * exp (- (1 / 2)
                         * (((nth i [0; 1; 2] 0 - mu') / sigma')
                            * ((nth i [0; 1; 2] 0 - mu') / sigma')))).
Proof.
  apply (model_is_pointwise_and_stateless example_store 0%nat [0; 1; 2]
           (Fin 1) (Fin 0) (Fin 1)).
  - reflexivity.
  - simpl; lia.
Defined.

(** * Further properties of the fitter and of the model *)

(** ** Moving the samples along the x-axis *)

Lemma cum_spec_linear (z w d : nat -> R) (t : R) n :
  cum_spec (fun k => z k + t * w k) d n
  = cum_spec z d n + t * cum_spec w d n.
Proof. induction n as [|n IH]; simpl; [ring | rewrite IH; ring]. Qed.

Lemma cum_spec_scaled (z d : nat -> R) (a b : R) n :
  cum_spec (fun k => a * z k) (fun k => b * d k) n = a * b * cum_spec z d n.
Proof. induction n as [|n IH]; simpl; [ring | rewrite IH; ring]. Qed.

Lemma length_shift t x : length (shift t x) = length x.
Proof. apply length_map. Qed.

Lemma nth_shift t x i :
  (i < length x)%nat -> nth i (shift t x) 0 = nth i x 0 + t.
Proof. intros Hi. unfold shift. now rewrite (nth_map_lt _ _ _ 0). Qed.

Lemma length_scale c y : length (scale c y) = length y.
Proof. apply length_map. Qed.

Lemma nth_scale c x i :
  (i < length x)%nat -> nth i (scale c x) 0 = c * nth i x 0.
Proof. intros Hi. unfold scale. now rewrite (nth_map_lt _ _ _ 0). Qed.

(** Two matrices with the same number of rows and the same entries. *)
Lemma rows_ext (a a' : list (R * R)) :
  length a = length a' ->
  (forall i, (i < length a)%nat ->
     nth i (column0 a) 0 = nth i (column0 a') 0 /\
     nth i (column1 a) 0 = nth i (column1 a') 0) ->
  a = a'.
Proof.
  intros Hlen H. apply (nth_ext _ _ (0, 0) (0, 0) Hlen).
  intros i Hi. destruct (H i Hi) as [H0 H1].
  unfold column0, column1 in *.
  rewrite !(nth_map_lt fst _ _ (0, 0) 0) in H0 by lia.
  rewrite !(nth_map_lt snd _ _ (0, 0) 0) in H1 by lia.
  destruct (nth i a (0, 0)), (nth i a' (0, 0)). simpl in *. congruence.
Qed.

Lemma length_shear t a : length (shear t a) = length a.
Proof. apply length_map. Qed.

Lemma nth_column0_shear t a i :
  (i < length a)%nat ->
  nth i (column0 (shear t a)) 0 = nth i (column0 a) 0.
Proof.
  intros Hi. unfold column0, shear. rewrite map_map. cbn [fst].
  reflexivity.
Qed.

Lemma nth_column1_shear t a i :
  (i < length a)%nat ->
  nth i (column1 (shear t a)) 0
  = nth i (column1 a) 0 + t * nth i (column0 a) 0.
Proof.
  intros Hi. unfold column0, column1, shear. rewrite map_map. cbn [snd fst].
  now rewrite !(nth_map_lt _ _ _ (0, 0) 0) by assumption.
Qed.

Lemma design_shift t x y :
  length x = length y -> (1 <= length x)%nat ->
  design (shift t x) y = shear t (design x y).
Proof.
  intros Hlen HN.
  assert (Hs : length (shift t x) = length y) by now rewrite length_shift.
  assert (Hd : forall i k, (k < i)%nat -> (i < length x)%nat ->
                 d_spec (shift t x) k = d_spec x k).
  { intros i k Hk Hi. unfold d_spec. rewrite !nth_shift by lia. ring. }
  apply rows_ext.
  - rewrite length_shear, !length_design; rewrite ?length_shift; auto.
  - intros i Hi. rewrite length_design, length_shift in Hi
      by (rewrite ?length_shift; auto).
    rewrite nth_column0_shear, nth_column1_shear
      by (rewrite length_design; auto).
    rewrite !nth_column0_design, !nth_column1_design
      by (rewrite ?length_shift; auto).
    split.
    + unfold S_y_spec. apply cum_spec_ext; eauto.
    + unfold S_xy_spec, S_y_spec. rewrite <- cum_spec_linear.
      apply cum_spec_ext; eauto.
      intros k Hk. unfold xy_spec. rewrite nth_shift by lia. ring.
Qed.

Lemma dot_shear t a b :
  dot (column0 (shear t a)) b = dot (column0 a) b /\
  dot (column1 (shear t a)) b = dot (column1 a) b + t * dot (column0 a) b.
Proof.
  revert b; induction a as [|[u v] a IH]; intros [|c b]; simpl;
    try (split; ring).
  destruct (IH b) as [E0 E1]. unfold column0, column1, shear in *.
  rewrite E0, E1. split; ring.
Qed.

Lemma gram_shear t a :
  dot (column0 (shear t a)) (column0 (shear t a))
  = dot (column0 a) (column0 a) /\
  dot (column0 (shear t a)) (column1 (shear t a))
  = dot (column0 a) (column1 a) + t * dot (column0 a) (column0 a) /\
  dot (column1 (shear t a)) (column1 (shear t a))
  = dot (column1 a) (column1 a) + 2 * t * dot (column0 a) (column1 a)
    + t * t * dot (column0 a) (column0 a).
Proof.
  induction a as [|[u v] a IH]; simpl; [repeat split; ring|].
  destruct IH as [E0 [E1 E2]]. unfold column0, column1, shear in *.
  rewrite E0, E1, E2. repeat split; ring.
Qed.

(** With independent columns, adding [t] times the first column to the
    second moves [t * B] from [A]. *)
Lemma lstsq_shear t a b :
  gram_det a <> 0 ->
  lstsq (shear t a) b
  = (fst (lstsq a b) - t * snd (lstsq a b), snd (lstsq a b)).
Proof.
  unfold gram_det, lstsq. intros Hdet.
  destruct (gram_shear t a) as [-> [-> ->]].
  destruct (dot_shear t a b) as [-> ->].
  set (s11 := dot (column0 a) (column0 a)) in *.
  set (s12 := dot (column0 a) (column1 a)) in *.
  set (s22 := dot (column1 a) (column1 a)) in *.
  set (t1 := dot (column0 a) b).
  set (t2 := dot (column1 a) b).
  replace (s11 * (s22 + 2 * t * s12 + t * t * s11)
           - (s12 + t * s11) * (s12 + t * s11))
    with (s11 * s22 - s12 * s12) by ring.
  destruct (Req_dec_T (s11 * s22 - s12 * s12) 0) as [Z|NZ]; [contradiction|].
  cbn [fst snd]. f_equal; field; assumption.
Qed.

Lemma map_bell_shift t m s x :
  map (bell_R (m + t) s) (shift t x) = map (bell_R m s) x.
Proof.
  unfold shift. rewrite map_map. apply map_ext. intros xi.
  unfold bell_R. do 2 f_equal.
  replace (xi + t - (m + t)) with (xi - m) by ring. reflexivity.
Qed.

Lemma fit_core_shift t x y :
  length x = length y -> (1 <= length x)%nat ->
  gram_det (design x y) <> 0 ->
  fit_core (shift t x) y
  = (fst (fst (fit_core x y)),
     fadd (snd (fst (fit_core x y))) (Fin t),
     snd (fit_core x y)).
Proof.
  intros Hlen HN Hdet.
  assert (Hx : x <> []) by (apply length_nonempty; lia).
  assert (Hy : y <> []) by (apply length_nonempty; lia).
  assert (Hsx : shift t x <> [])
    by (apply length_nonempty; rewrite length_shift; lia).
  destruct (lstsq (design x y) (target y)) as [A B] eqn:E.
  assert (E' : lstsq (design (shift t x) y) (target y) = (A - t * B, B)).
  { rewrite design_shift, lstsq_shear, E by assumption. reflexivity. }
  destruct (Rlt_dec B 0) as [HB|HB].
  - rewrite (fit_core_finite _ _ _ _ E HB Hx).
    rewrite (fit_core_finite _ _ _ _ E' HB Hsx). cbn [fst snd fadd].
    replace (- (A - t * B) / B) with (- A / B + t) by (field; lra).
    now rewrite map_bell_shift.
  - rewrite (fit_core_not_finite _ _ _ _ E) by (auto; lra).
    rewrite (fit_core_not_finite _ _ _ _ E') by (auto; lra).
    cbn [fst snd]. f_equal. f_equal.
    destruct (Req_dec_T B 0) as [Z|NZ].
    + subst B. replace (A - t * 0) with A by ring.
      unfold recover_mu. simpl.
      destruct (Req_dec_T 0 0); [|congruence].
      destruct (total_order_T (- A) 0) as [[?|?]|?]; reflexivity.
    + rewrite !recover_mu_nonzero by assumption. cbn [fadd].
      f_equal. field. assumption.
Qed.

Lemma sort_by_x_shift t l :
  sort_by_x (map (fun p : R * R => (fst p + t, snd p)) l)
  = map (fun p : R * R => (fst p + t, snd p)) (sort_by_x l).
Proof.
  induction l as [|p l IH]; simpl; auto. rewrite IH.
  generalize (sort_by_x l). intros m.
  induction m as [|q m IHm]; simpl; auto.
  destruct (Rle_dec (fst p + t) (fst q + t)), (Rle_dec (fst p) (fst q));
    simpl; try lra; auto.
  now rewrite IHm.
Qed.

Lemma combine_shift t x y :
  combine (shift t x) y
  = map (fun p : R * R => (fst p + t, snd p)) (combine x y).
Proof.
  revert y; induction x as [|a x IH]; intros [|b y]; simpl; auto.
  now rewrite IH.
Qed.

Lemma preprocess_shift t x y s x' y' :
  preprocess x y s = Ok (x', y') ->
  preprocess (shift t x) y s = Ok (shift t x', y').
Proof.
  unfold preprocess. rewrite length_shift.
  destruct (negb _ || _); try discriminate.
  destruct s; intros H; inversion H; subst; auto.
  rewrite combine_shift, sort_by_x_shift. unfold shift.
  rewrite !map_map. reflexivity.
Qed.

(** X1.  Translation.  When the two design columns of the preprocessed
    samples are linearly independent, fitting the samples moved by [t]
    along the x-axis returns the same amplitude and [sigma], and the mean
    moved by [t]; this holds for every outcome of the fit, finite or
    not. *)
Theorem translating_x_translates_mu (x y : list R) (s : bool) (t : R)
    (x' y' : list R) (amp mu sigma : float64) :
  preprocess x y s = Ok (x', y') ->
  gram_det (design x' y') <> 0 ->
  gauss_fit x y s = Ok (amp, mu, sigma) ->
  gauss_fit (shift t x) y s = Ok (amp, fadd mu (Fin t), sigma).
Proof.
  intros Hpre Hdet Hfit.
  destruct (preprocess_ok _ _ _ _ _ Hpre) as [Hlen HN].
  rewrite (gauss_fit_ok _ _ _ _ _ Hpre) in Hfit.
  rewrite (gauss_fit_ok _ _ _ _ _ (preprocess_shift t _ _ _ _ _ Hpre)).
  rewrite fit_core_shift by (auto; lia).
  injection Hfit as Hfit. now rewrite Hfit.
Qed.

Lemma gram_det_line : gram_det (design [0; 1; 2] [0; 1; 2]) <> 0.
Proof.
  unfold gram_det, design, half_steps, cumtrapz, column0, column1. simpl.
  lra.
Qed.

Lemma translating_x_witness :
  exists a : R,
    gauss_fit (shift 5 [0; 1; 2]) [0; 1; 2] true
    = Ok (Fin a, fadd (Fin 2) (Fin 5), Fin (sqrt (1 / 2))).
Proof.
  eexists.
  apply (translating_x_translates_mu [0; 1; 2] [0; 1; 2] true 5
           [0; 1; 2] [0; 1; 2]).
  - reflexivity.
  - exact gram_det_line.
  - exact gauss_fit_line.
Defined.

(** ** Changing the unit of the x-axis *)

Lemma length_stretch k a : length (stretch k a) = length a.
Proof. apply length_map. Qed.

Lemma nth_column0_stretch k a i :
  (i < length a)%nat ->
  nth i (column0 (stretch k a)) 0 = k * nth i (column0 a) 0.
Proof.
  intros Hi. unfold column0, stretch. rewrite map_map. cbn [fst].
  now rewrite !(nth_map_lt _ _ _ (0, 0) 0) by assumption.
Qed.

Lemma nth_column1_stretch k a i :
  (i < length a)%nat ->
  nth i (column1 (stretch k a)) 0 = k * k * nth i (column1 a) 0.
Proof.
  intros Hi. unfold column1, stretch. rewrite map_map. cbn [snd].
  now rewrite !(nth_map_lt _ _ _ (0, 0) 0) by assumption.
Qed.

Lemma design_scale_x k x y :
  length x = length y -> (1 <= length x)%nat ->
  design (scale k x) y = stretch k (design x y).
Proof.
  intros Hlen HN.
  assert (Hs : length (scale k x) = length y) by now rewrite length_scale.
  assert (Hd : forall i j, (j < i)%nat -> (i < length x)%nat ->
                 d_spec (scale k x) j = k * d_spec x j).
  { intros i j Hj Hi. unfold d_spec. rewrite !nth_scale by lia. ring. }
  apply rows_ext.
  - rewrite length_stretch, !length_design; rewrite ?length_scale; auto.
  - intros i Hi. rewrite length_design, length_scale in Hi
      by (rewrite ?length_scale; auto).
    rewrite nth_column0_stretch, nth_column1_stretch
      by (rewrite length_design; auto).
    rewrite !nth_column0_design, !nth_column1_design
      by (rewrite ?length_scale; auto).
    split.
    + unfold S_y_spec.
      replace (k * cum_spec (fun j => nth j y 0) (d_spec x) i)
        with (1 * k * cum_spec (fun j => nth j y 0) (d_spec x) i) by ring.
      rewrite <- cum_spec_scaled. apply cum_spec_ext; eauto.
      intros j Hj. ring.
    + unfold S_xy_spec. rewrite <- cum_spec_scaled.
      apply cum_spec_ext; eauto.
      intros j Hj. unfold xy_spec. rewrite nth_scale by lia. ring.
Qed.

Lemma dot_stretch k a b :
  dot (column0 (stretch k a)) b = k * dot (column0 a) b /\
  dot (column1 (stretch k a)) b = k * k * dot (column1 a) b.
Proof.
  revert b; induction a as [|[u v] a IH]; intros [|c b]; simpl;
    try (split; ring).
  destruct (IH b) as [E0 E1]. unfold column0, column1, stretch in *.
  rewrite E0, E1. split; ring.
Qed.

Lemma gram_stretch k a :
  dot (column0 (stretch k a)) (column0 (stretch k a))
  = k * k * dot (column0 a) (column0 a) /\
  dot (column0 (stretch k a)) (column1 (stretch k a))
  = k * k * k * dot (column0 a) (column1 a) /\
  dot (column1 (stretch k a)) (column1 (stretch k a))
  = k * k * k * k * dot (column1 a) (column1 a).
Proof.
  induction a as [|[u v] a IH]; simpl; [repeat split; ring|].
  destruct IH as [E0 [E1 E2]]. unfold column0, column1, stretch in *.
  rewrite E0, E1, E2. repeat split; ring.
Qed.

Lemma lstsq_stretch k a b :
  k <> 0 -> gram_det a <> 0 ->
  lstsq (stretch k a) b
  = (fst (lstsq a b) / k, snd (lstsq a b) / (k * k)).
Proof.
  unfold gram_det, lstsq. intros Hk Hdet.
  destruct (gram_stretch k a) as [-> [-> ->]].
  destruct (dot_stretch k a b) as [-> ->].
  set (s11 := dot (column0 a) (column0 a)) in *.
  set (s12 := dot (column0 a) (column1 a)) in *.
  set (s22 := dot (column1 a) (column1 a)) in *.
  set (t1 := dot (column0 a) b).
  set (t2 := dot (column1 a) b).
  replace (k * k * s11 * (k * k * k * k * s22)
           - k * k * k * s12 * (k * k * k * s12))
    with (k * k * k * k * k * k * (s11 * s22 - s12 * s12)) by ring.
  destruct (Req_dec_T (s11 * s22 - s12 * s12) 0) as [Z|NZ]; [contradiction|].
  destruct (Req_dec_T _ 0) as [Z'|NZ'].
  - exfalso. repeat (apply Rmult_integral in Z'; destruct Z' as [Z'|Z']);
      auto.
  - cbn [fst snd]. f_equal; field; auto.
Qed.

Lemma map_bell_scale k m s x :
  k <> 0 -> s <> 0 ->
  map (bell_R (k * m) (Rabs k * s)) (scale k x) = map (bell_R m s) x.
Proof.
  intros Hk Hs. unfold scale. rewrite map_map. apply map_ext. intros xi.
  unfold bell_R. do 2 f_equal.
  assert (Ha : Rabs k <> 0) by now apply Rabs_no_R0.
  assert (Hsq : Rabs k * Rabs k = k * k).
  { pose proof (Rsqr_abs k) as H. unfold Rsqr in H. now rewrite H. }
  replace ((k * xi - k * m) / (Rabs k * s) * ((k * xi - k * m) / (Rabs k * s)))
    with (k * k / (Rabs k * Rabs k) * ((xi - m) / s * ((xi - m) / s)))
    by (field; auto).
  rewrite Hsq. field; auto.
Qed.

(** X2.  Change of unit.  When the fit of [(x, y)] returns finite numbers
    and the two design columns are linearly independent, the fit of
    [(k * x, y)], [k <> 0], returns the same amplitude, the mean [k * mu]
    and the standard deviation [|k| * sigma].  A negative [k] turns
    increasing [x] into decreasing [x], which the fitter accepts. *)
Theorem scaling_x_scales_mu_and_sigma (x y : list R) (k a m sg : R) :
  k <> 0 ->
  length x = length y -> (2 <= length x)%nat ->
  gram_det (design x y) <> 0 ->
  gauss_fit x y true = Ok (Fin a, Fin m, Fin sg) ->
  gauss_fit (scale k x) y true = Ok (Fin a, Fin (k * m), Fin (Rabs k * sg)).
Proof.
  intros Hk Hlen HN Hdet Hfit.
  rewrite (gauss_fit_ok x y true x y) in Hfit
    by (apply preprocess_sorted; auto).
  rewrite (gauss_fit_ok (scale k x) y true (scale k x) y)
    by (apply preprocess_sorted; rewrite ?length_scale; auto).
  assert (Hx : x <> []) by (apply length_nonempty; lia).
  assert (Hkx : scale k x <> [])
    by (apply length_nonempty; rewrite length_scale; lia).
  destruct (lstsq (design x y) (target y)) as [A B] eqn:E.
  assert (HB : B < 0).
  { unfold fit_core in Hfit. rewrite E in Hfit. injection Hfit as _ _ Hs.
    now destruct (recover_sigma_finite _ _ Hs). }
  assert (E' : lstsq (design (scale k x) y) (target y)
               = (A / k, B / (k * k))).
  { rewrite design_scale_x, lstsq_stretch, E by (auto; lia). reflexivity. }
  assert (Hkk : 0 < k * k) by nra.
  assert (HB' : B / (k * k) < 0).
  { unfold Rdiv. assert (0 < / (k * k)) by now apply Rinv_0_lt_compat. nra. }
  rewrite (fit_core_finite _ _ _ _ E HB Hx) in Hfit.
  injection Hfit as Ha Hm Hs.
  rewrite (fit_core_finite _ _ _ _ E' HB' Hkx).
  assert (Hpos : 0 < - 1 / B).
  { unfold Rdiv. assert (0 < / - B) by (apply Rinv_0_lt_compat; lra).
    replace (- 1 * / B) with (/ - B) by (field; lra). assumption. }
  assert (Em : - (A / k) / (B / (k * k)) = k * m).
  { rewrite <- Hm. field. split; lra. }
  assert (Es : sqrt (- 1 / (B / (k * k))) = Rabs k * sg).
  { rewrite <- Hs.
    replace (- 1 / (B / (k * k))) with (k * k * (- 1 / B))
      by (field; split; lra).
    rewrite sqrt_mult by lra. f_equal.
    apply sqrt_Rsqr_abs. }
  rewrite Em, Es.
  assert (Hsg : sg <> 0).
  { rewrite <- Hs. pose proof (sqrt_lt_R0 _ Hpos). lra. }
  rewrite map_bell_scale by assumption.
  rewrite <- Ha, Hm, Hs. reflexivity.
Qed.

Lemma scaling_x_witness :
  exists a : R,
    gauss_fit (scale (-3) [0; 1; 2]) [0; 1; 2] true
    = Ok (Fin a, Fin (-3 * 2), Fin (Rabs (-3) * sqrt (1 / 2))).
Proof.
  eexists.
  apply (scaling_x_scales_mu_and_sigma [0; 1; 2] [0; 1; 2] (-3)).
  - lra.
  - reflexivity.
  - simpl; lia.
  - exact gram_det_line.
  - exact gauss_fit_line.
Defined.

Lemma three_samples_witness :
  gauss_fit [2; 1; 0] [2; 1; 0] true = gauss_fit [0; 1; 2] [0; 1; 2] true.
Proof.
  apply (three_samples_either_order 0 1 2 0 1 2). exact gram_det_line.
Defined.

(** ** What a fit can return *)

(** X4.  A finite [sigma] returned by [gauss_fit] is strictly positive: it
    is [sqrt(-1 / B)] for the negative [B] of the solve.  The fit returns
    no zero and no negative standard deviation. *)
Theorem finite_sigma_is_positive (x y : list R) (s : bool)
    (x' y' : list R) (amp mu : float64) (sg : R) :
  preprocess x y s = Ok (x', y') ->
  gauss_fit x y s = Ok (amp, mu, Fin sg) ->
  0 < sg /\
  snd (lstsq (design x' y') (target y')) < 0 /\
  sg = sqrt (- 1 / snd (lstsq (design x' y') (target y'))).
Proof.
  intros Hpre Hfit.
  rewrite (gauss_fit_ok _ _ _ _ _ Hpre) in Hfit.
  unfold fit_core in Hfit.
  destruct (lstsq (design x' y') (target y')) as [A B].
  injection Hfit as _ _ Hs. cbn [snd].
  destruct (recover_sigma_finite _ _ Hs) as [HB [Es Hpos]]. auto.
Qed.

Lemma finite_sigma_witness :
  0 < sqrt (1 / 2) /\
  snd (lstsq (design [0; 1; 2] [0; 1; 2]) (target [0; 1; 2])) < 0 /\
  sqrt (1 / 2)
  = sqrt (- 1 / snd (lstsq (design [0; 1; 2] [0; 1; 2]) (target [0; 1; 2]))).
Proof.
  eapply (finite_sigma_is_positive [0; 1; 2] [0; 1; 2] true
            [0; 1; 2] [0; 1; 2]).
  - reflexivity.
  - exact gauss_fit_line.
Defined.

(** ** The model and the amplitude step *)

Lemma model_finite x a m s :
  s <> 0 ->
  model x (Fin a) (Fin m) (Fin s)
  = map Fin (scale a (map (bell_R m s) x)).
Proof.
  intros Hs. unfold model, scale. rewrite !map_map.
  apply map_ext. intros xi. now rewrite bell_finite.
Qed.



(** ** The shape of the model *)

Lemma exp_nonpos_le_1 r : r <= 0 -> exp r <= 1.
Proof.
  intros [H|H].
  - rewrite <- exp_0. left. now apply exp_increasing.
  - subst. rewrite exp_0. lra.
Qed.

(** X6.  For finite parameters with [sigma <> 0] the model takes the value
    [a] at [x = mu], takes equal values at [mu + t] and [mu - t], and
    nowhere exceeds [|a|] in absolute value. *)
Theorem model_peak_symmetry_bound (a m s t : R) :
  s <> 0 ->
  exists v : R,
    model [m; m + t; m - t] (Fin a) (Fin m) (Fin s) = [Fin a; Fin v; Fin v] /\
    Rabs v <= Rabs a.
Proof.
  intros Hs. exists (a * bell_R m s (m + t)).
  rewrite model_finite by assumption. unfold scale. cbn [map]. split.
  - assert (E1 : bell_R m s m = 1).
    { unfold bell_R.
      replace (- (1 / 2) * ((m - m) / s * ((m - m) / s))) with 0
        by (field; assumption).
      apply exp_0. }
    assert (E2 : bell_R m s (m - t) = bell_R m s (m + t)).
    { unfold bell_R. do 2 f_equal. field. assumption. }
    rewrite E1, E2. replace (a * 1) with a by ring. reflexivity.
  - rewrite Rabs_mult.
    assert (Hb : 0 < bell_R m s (m + t)) by apply exp_pos.
    rewrite (Rabs_pos_eq (bell_R m s (m + t))) by lra.
    assert (Hle : bell_R m s (m + t) <= 1).
    { unfold bell_R. apply exp_nonpos_le_1.
      pose proof (Rle_0_sqr ((m + t - m) / s)) as Hq. unfold Rsqr in Hq.
      lra. }
    pose proof (Rabs_pos a). nra.
Qed.

Lemma model_shape_witness :
  exists v : R,
    model [2; 2 + 1; 2 - 1] (Fin 5) (Fin 2) (Fin 3)
    = [Fin 5; Fin v; Fin v] /\
    Rabs v <= Rabs 5.
Proof.
  apply (model_peak_symmetry_bound 5 2 3 1). lra.
Defined.

(** X7.  With [sigma = 0] and finite [a] and [mu] the model raises
    nothing: the division by zero gives [nan] where [x = mu] and an
    infinity elsewhere, whose square is [+inf] for either sign, so that the
    element is [a * exp(-inf) = 0]. *)
Theorem model_with_zero_sigma (x : list R) (a m : R) :
  model x (Fin a) (Fin m) (Fin 0)
  = map (fun xi => if Req_dec_T xi m then NaN else Fin 0) x.
Proof.
  unfold model. apply map_ext. intros xi.
  unfold bell, fsqr, fsub. cbn [fneg fadd fdiv].
  destruct (Req_dec_T 0 0) as [_|N]; [|congruence].
  assert (Hh : inf_scaled true (- (1 / 2)) = NInf).
  { unfold inf_scaled.
    destruct (total_order_T (- (1 / 2)) 0) as [[L|E]|G]; try lra.
    reflexivity. }
  destruct (Req_dec_T xi m) as [Heq|Hne];
    destruct (total_order_T (xi + - m) 0) as [[L|E]|G]; try lra;
    cbn [fmul fexp]; rewrite ?Hh; cbn [fexp fmul]; try reflexivity;
    f_equal; ring.
Qed.

(** ** The first design column on a straight line *)

(** X8.  For samples on a straight line [y = k * x + c] the trapezoidal
    sums commit no error: row [i] of the first design column is the
    integral [k/2 * (x_i^2 - x_0^2) + c * (x_i - x_0)] of the line from
    [x_0] to [x_i]. *)
Theorem first_column_exact_on_lines (x y : list R) (k c : R) :
  length x = length y -> (1 <= length x)%nat ->
  (forall i, (i < length x)%nat -> nth i y 0 = k * nth i x 0 + c) ->
  forall i, (i < length x)%nat ->
    nth i (column0 (design x y)) 0
    = k / 2 * (nth i x 0 * nth i x 0 - nth 0 x 0 * nth 0 x 0)
      + c * (nth i x 0 - nth 0 x 0).
Proof.
  intros Hlen HN Hy i Hi. rewrite nth_column0_design by assumption.
  unfold S_y_spec. induction i as [|i IH].
  - simpl. field.
  - cbn [cum_spec]. rewrite IH by lia.
    rewrite (Hy (S i)), (Hy i) by lia. unfold d_spec. field.
Qed.

Lemma first_column_witness :
  nth 2 (column0 (design [0; 1; 2] [1; 3; 5])) 0
  = 2 / 2 * (nth 2 [0; 1; 2] 0 * nth 2 [0; 1; 2] 0
             - nth 0 [0; 1; 2] 0 * nth 0 [0; 1; 2] 0)
    + 1 * (nth 2 [0; 1; 2] 0 - nth 0 [0; 1; 2] 0).
Proof.
  apply (first_column_exact_on_lines [0; 1; 2] [1; 3; 5] 2 1).
  - reflexivity.
  - simpl; lia.
  - intros [|[|[|i]]] Hi; simpl in *; try lia; lra.
  - simpl; lia.
Defined.

(** ** Too few samples, repeated samples *)

(** X9.  Two samples never determine the fit: the two design columns are
    linearly dependent whatever the samples are, so [lstsq] falls back on
    its minimum-norm solution, which is proportional to the single
    non-zero row of the matrix. *)
Theorem two_samples_are_rank_deficient (x0 x1 y0 y1 : R) :
  gram_det (design [x0; x1] [y0; y1]) = 0 /\
  let u := (y1 + y0) * (1 / 2 * (x1 - x0)) in
  let v := (x1 * y1 + x0 * y0) * (1 / 2 * (x1 - x0)) in
  design [x0; x1] [y0; y1] = [(0, 0); (u, v)] /\
  fst (lstsq (design [x0; x1] [y0; y1]) (target [y0; y1])) * v
  = snd (lstsq (design [x0; x1] [y0; y1]) (target [y0; y1])) * u.
Proof.
  split.
  - unfold gram_det, design, half_steps, cumtrapz, column0, column1.
    simpl. ring.
  - intros u v. split; [reflexivity|].
    unfold lstsq, design, target, half_steps, cumtrapz, column0, column1.
    cbn [map map2 diff cumsum cumsum_from dot tl removelast hd combine
         fst snd].
    fold u v.
    destruct (Req_dec_T _ 0) as [Hd|Hd].
    + destruct (Req_dec_T _ 0) as [Ht|Ht]; cbn [fst snd]; [ring|].
      field. intros Z. apply Ht.
      transitivity (u * u + v * v); [ring | exact Z].
    + exfalso. apply Hd. ring.
Qed.

(** X10.  A repeated x-value divides nothing by zero: the half-step
    between the two samples is [0], and the row of the design matrix for
    the second of them repeats the row before it. *)
Theorem repeated_x_repeats_row (x y : list R) (i : nat) :
  length x = length y -> (S i < length x)%nat ->
  nth (S i) x 0 = nth i x 0 ->
  nth (S i) (column0 (design x y)) 0 = nth i (column0 (design x y)) 0 /\
  nth (S i) (column1 (design x y)) 0 = nth i (column1 (design x y)) 0.
Proof.
  intros Hlen Hi Hrep.
  rewrite !nth_column0_design, !nth_column1_design by lia.
  unfold S_y_spec, S_xy_spec. cbn [cum_spec]. unfold d_spec.
  rewrite Hrep. split; ring.
Qed.

Lemma repeated_x_witness :
  nth 2 (column0 (design [0; 1; 1; 2] [3; 4; 5; 6])) 0
  = nth 1 (column0 (design [0; 1; 1; 2] [3; 4; 5; 6])) 0 /\
  nth 2 (column1 (design [0; 1; 1; 2] [3; 4; 5; 6])) 0
  = nth 1 (column1 (design [0; 1; 1; 2] [3; 4; 5; 6])) 0.
Proof.
  apply (repeated_x_repeats_row [0; 1; 1; 2] [3; 4; 5; 6] 1).
  - reflexivity.
  - simpl; lia.
  - reflexivity.
Defined.

(** ** The model under a change of coordinates *)

(** X11.  For finite parameters with [sigma <> 0] the model depends on
    [x], [mu] and [sigma] only through [((x - mu) / sigma)^2]: moving [x]
    and [mu] by the same [t], multiplying [x], [mu] and [sigma] by the
    same [k <> 0], or changing the sign of [sigma] leaves its values
    unchanged. *)
Theorem model_change_of_coordinates (x : list R) (a m s t k : R) :
  s <> 0 -> k <> 0 ->
  model (shift t x) (Fin a) (Fin (m + t)) (Fin s)
  = model x (Fin a) (Fin m) (Fin s) /\
  model (scale k x) (Fin a) (Fin (k * m)) (Fin (k * s))
  = model x (Fin a) (Fin m) (Fin s) /\
  model x (Fin a) (Fin m) (Fin (- s)) = model x (Fin a) (Fin m) (Fin s).
Proof.
  intros Hs Hk.
  assert (Hks : k * s <> 0) by now apply Rmult_integral_contrapositive.
  assert (Hns : - s <> 0) by lra.
  rewrite !model_finite by assumption.
  rewrite map_bell_shift. repeat split; do 2 f_equal.
  - unfold scale. rewrite map_map. apply map_ext. intros xi.
    unfold bell_R. do 2 f_equal. field. auto.
  - apply map_ext. intros xi. unfold bell_R. do 2 f_equal. field. auto.
Qed.

Lemma model_coordinates_witness :
  model (shift 1 [0; 1; 2]) (Fin 5) (Fin (2 + 1)) (Fin 3)
  = model [0; 1; 2] (Fin 5) (Fin 2) (Fin 3) /\
  model (scale (-2) [0; 1; 2]) (Fin 5) (Fin (-2 * 2)) (Fin (-2 * 3))
  = model [0; 1; 2] (Fin 5) (Fin 2) (Fin 3) /\
  model [0; 1; 2] (Fin 5) (Fin 2) (Fin (- 3))
  = model [0; 1; 2] (Fin 5) (Fin 2) (Fin 3).
Proof.
  apply (model_change_of_coordinates [0; 1; 2] 5 2 3 1 (-2)); lra.
Defined.
